(** * node-stream-lib: the sluice (flow gate) and the pump

    A shallow embedding of [lib/sluice.js] and [helper/pump.js].

    Both objects live on top of Node's stream classes.  The embedding keeps
    the fields the two files declare, and records every call they make on
    the surrounding stream machinery ([this.push], the write callback
    [next], [read], [write], [end], [setTimeout], [console.log]) so that the
    observable behaviour of each method can be stated. *)

From stdpp Require Import gmap strings list.

Set Default Proof Using "Type".

(** ** Values shared by both files *)

(** A chunk is opaque to the code; strings stand for it. *)
Definition chunk := string.

(** What a JavaScript variable holding a chunk may contain. *)
Inductive value :=
| VUndefined
| VNull
| VChunk (c : chunk).

#[global] Instance value_eq_dec : EqDecision value.
Proof. solve_decision. Defined.

(** Object identity: a location in the store. *)
Definition ref := nat.

(** * lib/sluice.js *)
Module Sluice.

(** The fields of a sluice.  [buffer], [flowIn] and [flowOut] are the
    fields of the source; [pushed] is the trace of [this.push(x)] calls
    (what the readable side was handed, in order) and [nexts] counts the
    invocations of the write callback [next]. *)
Record Gate := mkGate {
  buffer : list value;
  flowIn : bool;
  flowOut : bool;
  pushed : list value;
  nexts : nat
}.

Definition set_buffer (b : list value) (g : Gate) : Gate :=
  mkGate b (flowIn g) (flowOut g) (pushed g) (nexts g).
Definition set_flowIn (v : bool) (g : Gate) : Gate :=
  mkGate (buffer g) v (flowOut g) (pushed g) (nexts g).
Definition set_flowOut (v : bool) (g : Gate) : Gate :=
  mkGate (buffer g) (flowIn g) v (pushed g) (nexts g).

(** [this.push(x)] *)
Definition push (x : value) (g : Gate) : Gate :=
  mkGate (buffer g) (flowIn g) (flowOut g) (pushed g ++ [x]) (nexts g).

(** [next()] *)
Definition next (g : Gate) : Gate :=
  mkGate (buffer g) (flowIn g) (flowOut g) (pushed g) (S (nexts g)).

(** [new Sluice()]: an empty buffer of its own; [flowIn] and [flowOut]
    are read from the prototype, where both are [true]. *)
Definition new : Gate := mkGate [] true true [] 0.

(** The ['finish'] listener installed by the constructor:
    [this.buffer.push(null)]. *)
Definition on_finish (g : Gate) : Gate :=
  set_buffer (buffer g ++ [VNull]) g.

(** [while (this.buffer.length) { this.push(this.buffer.shift()); }]
    One iteration per queued element. *)
Fixpoint shift_loop (queue : list value) (g : Gate) : Gate :=
  match queue with
  | [] => set_buffer [] g
  | x :: rest => shift_loop rest (push x (set_buffer rest g))
  end.

Definition _read (g : Gate) : Gate :=
  if negb (flowOut g) then g else shift_loop (buffer g) g.

(** [_write(chunk, encoding, next)]: the guard on [flowIn] calls [next()]
    and control then continues with the statements after the [if]. *)
Definition _write (c : value) (g : Gate) : Gate :=
  let g1 := if negb (flowIn g) then next g else g in
  let g2 := set_buffer (buffer g1 ++ [c]) g1 in
  _read g2.

Definition openInlet (g : Gate) : Gate := set_flowIn true g.
Definition closeInlet (g : Gate) : Gate := set_flowIn false g.
Definition openOutlet (g : Gate) : Gate := _read (set_flowOut true g).
Definition closeOutlet (g : Gate) : Gate := set_flowOut false g.

(** The composites, as the effect of the chained calls on the receiver. *)
Definition pourIn (g : Gate) : Gate := openInlet (closeOutlet g).
Definition pourOut (g : Gate) : Gate := closeInlet (openOutlet g).
Definition fullFlow (g : Gate) : Gate := openInlet (openOutlet g).
Definition freeze (g : Gate) : Gate := closeInlet (closeOutlet g).

(** Everything that may happen to a sluice, for statements over arbitrary
    histories. *)
Inductive op :=
| OpWrite (c : value)
| OpRead
| OpFinish
| OpOpenInlet | OpCloseInlet | OpOpenOutlet | OpCloseOutlet
| OpPourIn | OpPourOut | OpFullFlow | OpFreeze.

Definition step (o : op) (g : Gate) : Gate :=
  match o with
  | OpWrite c => _write c g
  | OpRead => _read g
  | OpFinish => on_finish g
  | OpOpenInlet => openInlet g
  | OpCloseInlet => closeInlet g
  | OpOpenOutlet => openOutlet g
  | OpCloseOutlet => closeOutlet g
  | OpPourIn => pourIn g
  | OpPourOut => pourOut g
  | OpFullFlow => fullFlow g
  | OpFreeze => freeze g
  end.

Definition run (os : list op) (g : Gate) : Gate :=
  foldl (fun acc o => step o acc) g os.

(** The items a sluice holds or has handed on, oldest first: those already
  pushed, then those still queued. *)
Definition history (g : Gate) : list value := pushed g ++ buffer g.

(** ** Method calls on a sluice object

    [this] is a location in a store of sluices.  The valve methods end in
    [return this]; the composites call one valve method on the value the
    other returned. *)
Module Obj.

Definition openInlet (this : ref) (h : gmap ref Gate) : ref * gmap ref Gate :=
  (this, alter (set_flowIn true) this h).
Definition closeInlet (this : ref) (h : gmap ref Gate) : ref * gmap ref Gate :=
  (this, alter (set_flowIn false) this h).
Definition openOutlet (this : ref) (h : gmap ref Gate) : ref * gmap ref Gate :=
  (this, alter _read this (alter (set_flowOut true) this h)).
Definition closeOutlet (this : ref) (h : gmap ref Gate) : ref * gmap ref Gate :=
  (this, alter (set_flowOut false) this h).

Definition pourIn (this : ref) (h : gmap ref Gate) : ref * gmap ref Gate :=
  let '(r, h1) := closeOutlet this h in openInlet r h1.
Definition pourOut (this : ref) (h : gmap ref Gate) : ref * gmap ref Gate :=
  let '(r, h1) := openOutlet this h in closeInlet r h1.
Definition fullFlow (this : ref) (h : gmap ref Gate) : ref * gmap ref Gate :=
  let '(r, h1) := openOutlet this h in openInlet r h1.
Definition freeze (this : ref) (h : gmap ref Gate) : ref * gmap ref Gate :=
  let '(r, h1) := closeOutlet this h in closeInlet r h1.

(** A method that hands back its receiver, and whose second call in a row
    changes nothing. *)
Definition chainable_idempotent
    (m : ref -> gmap ref Gate -> ref * gmap ref Gate) : Prop :=
  forall this h, (m this h).1 = this /\ m this (m this h).2 = m this h.

End Obj.

End Sluice.

(** ** A sluice behind [write]

    [Sluice] inherits [write] from [Duplex].  The writable side of a Node
    stream hands [_write] one chunk at a time: [write(chunk)] calls
    [_write(chunk, encoding, next)] at once when no earlier chunk awaits
    its callback, and otherwise keeps the chunk in the writable side's own
    queue, to be handed to [_write] when [next] is called for the chunk in
    front of it. *)
Module SluiceStream.
Import Sluice.

(** The sluice, whether a chunk handed to [_write] still awaits [next],
    and the chunks written meanwhile. *)
Record Written := mkWritten {
  gate : Gate;
  awaiting : bool;
  waiting : list value
}.

(** [new Sluice()] *)
Definition new : Written := mkWritten Sluice.new false [].

(** [sluice.write(chunk)].  Whether [_write] called [next] shows in the
    count of its invocations.  Chunks wait only behind an awaited one, so
    none is waiting when [_write] is called here. *)
Definition write (c : value) (s : Written) : Written :=
  if awaiting s then mkWritten (gate s) true (waiting s ++ [c])
  else
    let g := _write c (gate s) in
    mkWritten g (Nat.eqb (nexts g) (nexts (gate s))) (waiting s).

(** A valve method called on the sluice. *)
Definition valve (m : Gate -> Gate) (s : Written) : Written :=
  mkWritten (m (gate s)) (awaiting s) (waiting s).

Definition pourIn : Written -> Written := valve Sluice.pourIn.
Definition pourOut : Written -> Written := valve Sluice.pourOut.

End SluiceStream.

(** * helper/pump.js *)
Module Pump.

(** The strings ['readable'] and ['writable'] stored in [sourceType] and
    [destinationType]; [null] is [None]. *)
Inductive stype := readable | writable.

#[global] Instance stype_eq_dec : EqDecision stype.
Proof. solve_decision. Defined.

(** [new Error(msg)] thrown by the registrations, and the [TypeError] the
    runtime raises on a property access or a call on [null]. *)
Inductive error :=
| Error (msg : string)
| TypeError.

Inductive result (A : Type) :=
| Ok (a : A)
| Throw (e : error).
Arguments Ok {A} a.
Arguments Throw {A} e.

(** ** The streams around the pump

    Only what the pump touches: the [readable] and [writable] flags, the
    length of [_readableState.buffer], [_writableState.ended], the
    listeners attached with [on], whether [_write] / [_read] were
    replaced by the pump's closures, and the calls received. *)

Inductive call :=
| CRead               (* read() *)
| CRead0              (* read(0) *)
| CPush (v : value)   (* push(v) *)
| CWrite (v : value)  (* write(v) *)
| CEnd.               (* end() *)

(** The closures the pump attaches with [source.on(...)]. *)
Inductive listener :=
| on_source_readable
| on_source_error
| on_source_end
| on_source_finish.

(** The closures handed to [setTimeout(..., 0)]. *)
Inductive task :=
| task_finish     (* self.sourceIsFinished = true; self.pump(); *)
| task_destroy.   (* self.destroy(); *)

(** A write callback [next], known by its identity only. *)
Definition callback := nat.

Record Stream := mkStream {
  s_readable : bool;
  s_writable : bool;
  rbuffer : list value;
  wended : bool;
  listeners : list (string * listener);
  _write_is_pump : bool;
  _read_is_pump : bool;
  calls : list call
}.

Definition set_rbuffer (b : list value) (s : Stream) : Stream :=
  mkStream (s_readable s) (s_writable s) b (wended s) (listeners s)
           (_write_is_pump s) (_read_is_pump s) (calls s).
Definition set_wended (b : bool) (s : Stream) : Stream :=
  mkStream (s_readable s) (s_writable s) (rbuffer s) b (listeners s)
           (_write_is_pump s) (_read_is_pump s) (calls s).
Definition add_listener (ev : string) (l : listener) (s : Stream) : Stream :=
  mkStream (s_readable s) (s_writable s) (rbuffer s) (wended s)
           (listeners s ++ [(ev, l)])
           (_write_is_pump s) (_read_is_pump s) (calls s).
Definition set__write (s : Stream) : Stream :=
  mkStream (s_readable s) (s_writable s) (rbuffer s) (wended s) (listeners s)
           true (_read_is_pump s) (calls s).
Definition set__read (s : Stream) : Stream :=
  mkStream (s_readable s) (s_writable s) (rbuffer s) (wended s) (listeners s)
           (_write_is_pump s) true (calls s).
Definition log (c : call) (s : Stream) : Stream :=
  mkStream (s_readable s) (s_writable s) (rbuffer s) (wended s) (listeners s)
           (_write_is_pump s) (_read_is_pump s) (calls s ++ [c]).

(** [stream.read()]: the next buffered item, or [null]. *)
Definition read (s : Stream) : value * Stream :=
  match rbuffer s with
  | [] => (VNull, log CRead s)
  | v :: rest => (v, log CRead (set_rbuffer rest s))
  end.

(** [stream.read(0)]: nothing is consumed. *)
Definition read0 (s : Stream) : value * Stream := (VNull, log CRead0 s).

(** [stream.push(v)]: a chunk joins the readable buffer; [null] (and
    [undefined]) carry no data. *)
Definition push (v : value) (s : Stream) : unit * Stream :=
  match v with
  | VChunk _ => (tt, log (CPush v) (set_rbuffer (rbuffer s ++ [v]) s))
  | _ => (tt, log (CPush v) s)
  end.

(** [stream.write(v)]: the call is recorded with its argument.  The
    streams here take every value; a Node [Writable] raises on [null]. *)
Definition write (v : value) (s : Stream) : unit * Stream :=
  (tt, log (CWrite v) s).

Definition end_ (s : Stream) : unit * Stream := (tt, log CEnd s).

(** ** The pump object and the world it runs in *)

Record PumpObj := mkPump {
  source : option ref;
  destination : option ref;
  sourceIsReady : bool;
  sourceIsFinished : bool;
  sourceType : option stype;
  bytesToRead : nat;
  destinationIsReady : bool;
  destinationType : option stype;
  lastChunk : value;
  lastNext : option callback;
  lastEncoding : option string
}.

(** The prototype's defaults; [new Pump()] without a transfer function
    adds no field of its own. *)
Definition new : PumpObj :=
  mkPump None None false false None 0 false None VNull None None.

Definition set_source (v : option ref) (p : PumpObj) : PumpObj :=
  mkPump v (destination p) (sourceIsReady p) (sourceIsFinished p)
         (sourceType p) (bytesToRead p) (destinationIsReady p)
         (destinationType p) (lastChunk p) (lastNext p) (lastEncoding p).
Definition set_destination (v : option ref) (p : PumpObj) : PumpObj :=
  mkPump (source p) v (sourceIsReady p) (sourceIsFinished p)
         (sourceType p) (bytesToRead p) (destinationIsReady p)
         (destinationType p) (lastChunk p) (lastNext p) (lastEncoding p).
Definition set_sourceIsReady (v : bool) (p : PumpObj) : PumpObj :=
  mkPump (source p) (destination p) v (sourceIsFinished p)
         (sourceType p) (bytesToRead p) (destinationIsReady p)
         (destinationType p) (lastChunk p) (lastNext p) (lastEncoding p).
Definition set_sourceIsFinished (v : bool) (p : PumpObj) : PumpObj :=
  mkPump (source p) (destination p) (sourceIsReady p) v
         (sourceType p) (bytesToRead p) (destinationIsReady p)
         (destinationType p) (lastChunk p) (lastNext p) (lastEncoding p).
Definition set_sourceType (v : option stype) (p : PumpObj) : PumpObj :=
  mkPump (source p) (destination p) (sourceIsReady p) (sourceIsFinished p)
         v (bytesToRead p) (destinationIsReady p)
         (destinationType p) (lastChunk p) (lastNext p) (lastEncoding p).
Definition set_bytesToRead (v : nat) (p : PumpObj) : PumpObj :=
  mkPump (source p) (destination p) (sourceIsReady p) (sourceIsFinished p)
         (sourceType p) v (destinationIsReady p)
         (destinationType p) (lastChunk p) (lastNext p) (lastEncoding p).
Definition set_destinationIsReady (v : bool) (p : PumpObj) : PumpObj :=
  mkPump (source p) (destination p) (sourceIsReady p) (sourceIsFinished p)
         (sourceType p) (bytesToRead p) v
         (destinationType p) (lastChunk p) (lastNext p) (lastEncoding p).
Definition set_destinationType (v : option stype) (p : PumpObj) : PumpObj :=
  mkPump (source p) (destination p) (sourceIsReady p) (sourceIsFinished p)
         (sourceType p) (bytesToRead p) (destinationIsReady p)
         v (lastChunk p) (lastNext p) (lastEncoding p).
Definition set_last (c : value) (e : option string) (n : option callback)
    (p : PumpObj) : PumpObj :=
  mkPump (source p) (destination p) (sourceIsReady p) (sourceIsFinished p)
         (sourceType p) (bytesToRead p) (destinationIsReady p)
         (destinationType p) c n e.

(** The pump [self], the streams by location, the pending zero-delay
    timers, the lines printed by [console.log], and the write callbacks
    invoked so far. *)
Record World := mkWorld {
  self : PumpObj;
  heap : gmap ref Stream;
  timers : list task;
  console : list string;
  called : list callback
}.

(** ** Statements: state passing with exceptions *)

Definition M (A : Type) : Type := World -> result A * World.

Definition ret {A} (a : A) : M A := fun w => (Ok a, w).
Definition bind {A B} (m : M A) (k : A -> M B) : M B :=
  fun w => match m w with
           | (Ok a, w') => k a w'
           | (Throw e, w') => (Throw e, w')
           end.
Definition throw {A} (e : error) : M A := fun w => (Throw e, w).

Declare Scope pump_scope.
Delimit Scope pump_scope with pump.
Notation "'let*' x ':=' c1 'in' c2" := (bind c1 (fun x => c2))
  (at level 10, x name, c1 at level 100, c2 at level 200) : pump_scope.
Notation "c1 ;; c2" := (bind c1 (fun _ => c2))
  (at level 100, c2 at level 200, right associativity) : pump_scope.
Local Open Scope pump_scope.

(** [this.f] *)
Definition gets {A} (f : PumpObj -> A) : M A := fun w => (Ok (f (self w)), w).
(** [this.f = v] *)
Definition assign (upd : PumpObj -> PumpObj) : M unit :=
  fun w => (Ok tt, mkWorld (upd (self w)) (heap w) (timers w) (console w) (called w)).

(** A property read on the object a variable holds. *)
Definition peek {A} (r : option ref) (f : Stream -> A) : M A :=
  fun w => match r with
           | None => (Throw TypeError, w)
           | Some l => match heap w !! l with
                       | None => (Throw TypeError, w)
                       | Some s => (Ok (f s), w)
                       end
           end.

(** A method call on the object a variable holds. *)
Definition invoke {A} (r : option ref) (m : Stream -> A * Stream) : M A :=
  fun w => match r with
           | None => (Throw TypeError, w)
           | Some l => match heap w !! l with
                       | None => (Throw TypeError, w)
                       | Some s =>
                           let '(a, s') := m s in
                           (Ok a, mkWorld (self w) (<[l := s']> (heap w))
                                          (timers w) (console w) (called w))
                       end
           end.

(** [setTimeout(f, 0)] *)
Definition setTimeout (t : task) : M unit :=
  fun w => (Ok tt, mkWorld (self w) (heap w) (timers w ++ [t]) (console w) (called w)).
(** [console.log(line)] *)
Definition console_log (line : string) : M unit :=
  fun w => (Ok tt, mkWorld (self w) (heap w) (timers w) (console w ++ [line]) (called w)).
(** Calling a write callback; [null] is not callable. *)
Definition call_next (n : option callback) : M unit :=
  fun w => match n with
           | None => (Throw TypeError, w)
           | Some k => (Ok tt, mkWorld (self w) (heap w) (timers w) (console w) (called w ++ [k]))
           end.

(** ** The methods *)

(** The first argument of [onPump]: the source stream itself, or the object
    literal [{read: ..., chunk: ..., encoding: ..., next: ...}] that [pump]
    builds for a writable source. *)
Inductive source_arg :=
| src_stream (r : option ref)
| src_view (chunk : value) (encoding : option string) (next : option callback).

(** [source.read()] and [source.read(0)].  The literal's [read] is
    [function () { self.lastNext(); return self.lastChunk; }]. *)
Definition arg_read (zero : bool) (a : source_arg) : M value :=
  match a with
  | src_stream r => invoke r (if zero then read0 else read)
  | src_view _ _ _ =>
      let* n := gets lastNext in
      call_next n ;;
      gets lastChunk
  end.

(** [source.chunk] *)
Definition arg_chunk (a : source_arg) : M value :=
  match a with
  | src_stream r => peek r (fun _ => VUndefined)
  | src_view c _ _ => ret c
  end.

(** [source.next()]; a stream has no such method. *)
Definition arg_next (a : source_arg) : M unit :=
  match a with
  | src_stream _ => throw TypeError
  | src_view _ _ n => call_next n
  end.

(** The default transfer function. *)
Definition onPump (source : source_arg) (destination : option ref) : M unit :=
  let* st := gets sourceType in
  let* dt := gets destinationType in
  let* chunk :=
    match st with
    | Some readable =>
        match dt with
        | Some readable => arg_read false source
        | Some writable => arg_read false source
        | None => ret VUndefined
        end
    | Some writable => arg_chunk source
    | None => ret VUndefined
    end in
  match dt with
  | Some readable => invoke destination (push chunk)
  | Some writable => invoke destination (write chunk)
  | None => ret tt
  end ;;
  let* fin := gets sourceIsFinished in
  if negb fin then
    match st with
    | Some writable => arg_next source
    | Some readable => let* _ := arg_read true source in ret tt
    | None => ret tt
    end
  else ret tt.

(** [wait] inside [destroy]. *)
Definition wait : M unit :=
  console_log "waiting" ;;
  setTimeout task_destroy.

Definition destroy (force : bool) : M unit :=
  let* dt := gets destinationType in
  let* st := gets sourceType in
  let* dst := gets destination in
  let* src := gets source in
  let* defer :=
    if negb force then
      let* pending :=
        match dt with
        | Some readable => peek dst (fun s => negb (Nat.eqb (length (rbuffer s)) 0))
        | _ => ret false
        end in
      if pending then ret true
      else
        match st with
        | Some writable => peek src (fun s => negb (wended s))
        | _ => ret false
        end
    else ret false in
  if defer then wait
  else
    match dt with
    | Some readable => invoke dst (push VNull)
    | Some writable => invoke dst end_
    | None => ret tt
    end.

Definition pump : M unit :=
  let* sr := gets sourceIsReady in
  let* dr := gets destinationIsReady in
  if sr && dr then
    assign (set_sourceIsReady false) ;;
    let* dt := gets destinationType in
    match dt with
    | Some writable => ret tt
    | _ => assign (set_destinationIsReady false)
    end ;;
    let* st := gets sourceType in
    let* src := gets source in
    let* dst := gets destination in
    let* c := gets lastChunk in
    let* e := gets lastEncoding in
    let* n := gets lastNext in
    match st, dt with
    | Some readable, Some writable =>
        onPump (src_stream src) dst ;;
        assign (set_sourceIsReady false)
    | Some readable, Some readable => onPump (src_stream src) dst
    | Some writable, Some readable => onPump (src_view c e n) dst
    | Some writable, Some writable => onPump (src_view c e n) dst
    | _, _ => ret tt
    end
  else
    let* fin := gets sourceIsFinished in
    if fin then destroy false else ret tt.

Definition registerReadableSource (source_ : ref) : M unit :=
  let* cur := gets source in
  match cur with
  | Some _ => throw (Error "There is already a source")
  | None =>
      let* ok := peek (Some source_) s_readable in
      if negb ok then throw (Error "This stream is not readable")
      else
        assign (set_source (Some source_)) ;;
        assign (set_sourceType (Some readable)) ;;
        invoke (Some source_) (fun s => (tt, add_listener "readable" on_source_readable s)) ;;
        invoke (Some source_) (fun s => (tt, add_listener "error" on_source_error s)) ;;
        invoke (Some source_) (fun s => (tt, add_listener "end" on_source_end s))
  end.

Definition registerWritableSource (source_ : ref) : M unit :=
  let* cur := gets source in
  match cur with
  | Some _ => throw (Error "There is already a source")
  | None =>
      let* ok := peek (Some source_) s_writable in
      if negb ok then throw (Error "This stream is not writable")
      else
        assign (set_source (Some source_)) ;;
        assign (set_sourceType (Some writable)) ;;
        invoke (Some source_) (fun s => (tt, set__write s)) ;;
        invoke (Some source_) (fun s => (tt, add_listener "finish" on_source_finish s))
  end.

Definition registerReadableDestination (destination_ : ref) : M unit :=
  let* cur := gets destination in
  match cur with
  | Some _ => throw (Error "There is already a destination")
  | None =>
      let* ok := peek (Some destination_) s_readable in
      if negb ok then throw (Error "This stream is not readable")
      else
        assign (set_destination (Some destination_)) ;;
        assign (set_destinationType (Some readable)) ;;
        invoke (Some destination_) (fun s => (tt, set__read s))
  end.

Definition registerWritableDestination (destination_ : ref) : M unit :=
  let* cur := gets destination in
  match cur with
  | Some _ => throw (Error "There is already a destination")
  | None =>
      let* ok := peek (Some destination_) s_writable in
      if negb ok then throw (Error "This stream is not writable")
      else
        assign (set_destination (Some destination_)) ;;
        assign (set_destinationType (Some writable)) ;;
        assign (set_destinationIsReady true)
  end.

(** ** The closures, run when the surrounding machinery calls them *)

Definition run_listener (l : listener) : M unit :=
  match l with
  | on_source_readable => assign (set_sourceIsReady true) ;; pump
  | on_source_error => destroy false
  | on_source_end => assign (set_sourceIsFinished true) ;; pump
  | on_source_finish => setTimeout task_finish
  end.

Definition run_task (t : task) : M unit :=
  match t with
  | task_finish => assign (set_sourceIsFinished true) ;; pump
  | task_destroy => destroy false
  end.

Fixpoint run_listeners (ls : list (string * listener)) (ev : string) : M unit :=
  match ls with
  | [] => ret tt
  | (name, l) :: rest =>
      (if String.eqb name ev then run_listener l else ret tt) ;;
      run_listeners rest ev
  end.

(** [stream.emit(ev)]: the listeners registered for [ev], in order of
    registration. *)
Definition emit (r : ref) (ev : string) : M unit :=
  let* ls := peek (Some r) listeners in
  run_listeners ls ev.

(** The stream machinery calls [stream._write(chunk, encoding, next)]. *)
Definition call__write (r : ref) (c : value) (e : option string) (n : callback) : M unit :=
  let* mine := peek (Some r) _write_is_pump in
  if mine then
    assign (set_last c e (Some n)) ;;
    assign (set_sourceIsReady true) ;;
    pump
  else ret tt.

(** The stream machinery calls [stream._read(bytes)]. *)
Definition call__read (r : ref) (bytes : nat) : M unit :=
  let* mine := peek (Some r) _read_is_pump in
  if mine then
    assign (set_bytesToRead bytes) ;;
    assign (set_destinationIsReady true) ;;
    pump
  else ret tt.

(** The oldest pending timer fires. *)
Definition fire_timer : M unit :=
  fun w =>
    match timers w with
    | [] => (Ok tt, w)
    | t :: rest =>
        run_task t (mkWorld (self w) (heap w) rest (console w) (called w))
    end.

(** ** What the surroundings do

    Data arrives in a stream's readable buffer, a consumer takes the oldest
    buffered item, and the events above are delivered. *)
Inductive event :=
| Arrive (r : ref) (v : value)
| Consume (r : ref)
| Emit (r : ref) (ev : string)
| CallWrite (r : ref) (c : value) (e : option string) (n : callback)
| CallRead (r : ref) (bytes : nat)
| Timer.

Definition deliver (e : event) : M unit :=
  match e with
  | Arrive r v => invoke (Some r) (fun s => (tt, set_rbuffer (rbuffer s ++ [v]) s))
  | Consume r => invoke (Some r) (fun s => (tt, set_rbuffer (tail (rbuffer s)) s))
  | Emit r ev => emit r ev
  | CallWrite r c e n => call__write r c e n
  | CallRead r bytes => call__read r bytes
  | Timer => fire_timer
  end.

(** A sequence of events; an exception escaping a handler ends the run. *)
Fixpoint deliver_all (es : list event) : M unit :=
  match es with
  | [] => ret tt
  | e :: rest => deliver e ;; deliver_all rest
  end.

(** The items that arrive during a schedule, oldest first. *)
Fixpoint arrived (es : list event) : list value :=
  match es with
  | [] => []
  | Arrive _ v :: rest => v :: arrived rest
  | _ :: rest => arrived rest
  end.

(** The world after [wait()]: one more line on the console and one more
    pending timer, nothing else. *)
Definition deferred (w : World) : World :=
  mkWorld (self w) (heap w) (timers w ++ [task_destroy])
          (console w ++ ["waiting"]) (called w).

(** The world after a call [m] on the stream [s0] stored at [r]. *)
Definition after_call {A} (r : ref) (m : Stream -> A * Stream) (s0 : Stream)
    (w : World) : World :=
  mkWorld (self w) (<[r := (m s0).2]> (heap w)) (timers w) (console w) (called w).

(** ** Concrete worlds

    Streams no pump has touched yet, and the worlds a few calls lead to. *)
Definition fresh_readable : Stream := mkStream true false [] false [] false false [].
Definition fresh_writable : Stream := mkStream false true [] false [] false false [].

(** A new pump among two readable streams (1 and 3) and a writable one (2). *)
Definition unregistered : World :=
  mkWorld new {[1 := fresh_readable; 2 := fresh_writable; 3 := fresh_readable]}
          [] [] [].

(** Readable source 1 and writable destination 2 registered. *)
Definition armed : World :=
  ((registerReadableSource 1 ;; registerWritableDestination 2) unregistered).2.

(** The source of [armed] has emitted ['end']. *)
Definition ended : World := (deliver (Emit 1 "end") armed).2.

(** Readable source 1 and readable destination 3 registered; the item "a"
    has arrived at the source, the destination has asked for data, and the
    ['readable'] listener has just set [sourceIsReady]. *)
Definition pull_pull_ready : World :=
  ((registerReadableSource 1 ;; registerReadableDestination 3 ;;
    deliver (Arrive 1 (VChunk "a")) ;; deliver (CallRead 3 16) ;;
    assign (set_sourceIsReady true)) unregistered).2.

(** A readable destination still holding an unread item. *)
Definition pull_pull_buffered : World :=
  ((registerReadableSource 1 ;; registerReadableDestination 3 ;;
    deliver (Arrive 3 (VChunk "a"))) unregistered).2.

(** The three listeners [registerReadableSource] attaches. *)
Definition readable_source_listeners : list (string * listener) :=
  [("readable", on_source_readable); ("error", on_source_error);
   ("end", on_source_end)].

(** The pump between a readable source [s] and a writable destination [d]
    while no handler runs: the fields are those the two registrations
    leave, the source holds the unread items [pending] and carries the
    pump's three listeners, and the destination has received the calls
    [sent]. *)
Definition at_rest (s d : ref) (pending : list value) (sent : list call)
    (w : World) : Prop :=
  self w = mkPump (Some s) (Some d) false false (Some readable) 0 true
                  (Some writable) VNull None None /\
  exists S D,
    heap w !! s = Some S /\ heap w !! d = Some D /\
    rbuffer S = pending /\ listeners S = readable_source_listeners /\
    calls D = sent.

(** What a stream [s1] may have become when no data moved: itself, or
    itself after one [push(null)] or one [end()]. *)
Definition end_signal_only (s0 s1 : Stream) : Prop :=
  s1 = s0 \/ s1 = log (CPush VNull) s0 \/ s1 = log CEnd s0.


End Pump.

(** * Vocabulary for statements over whole runs *)
Module SluiceRuns.
Import Sluice.

(** What a sequence of operations hands to the sluice, oldest first: the
    chunks given to [_write] and one [null] per ['finish']. *)
Fixpoint inputs (os : list op) : list value :=
  match os with
  | [] => []
  | OpWrite c :: rest => c :: inputs rest
  | OpFinish :: rest => VNull :: inputs rest
  | _ :: rest => inputs rest
  end.

(** The operations that assign [flowOut = true]. *)
Definition opens_outlet (o : op) : bool :=
  match o with
  | OpOpenOutlet | OpPourOut | OpFullFlow => true
  | _ => false
  end.

(** [flowIn] after an operation, given [flowIn] before it. *)
Definition inlet_after (o : op) (inlet : bool) : bool :=
  match o with
  | OpOpenInlet | OpPourIn | OpFullFlow => true
  | OpCloseInlet | OpPourOut | OpFreeze => false
  | _ => inlet
  end.

(** The number of [_write] calls of a run that find the inlet closed. *)
Fixpoint closed_writes (inlet : bool) (os : list op) : nat :=
  match os with
  | [] => 0
  | o :: rest =>
      (match o with
       | OpWrite _ => if inlet then 0 else 1
       | _ => 0
       end) + closed_writes (inlet_after o inlet) rest
  end.

End SluiceRuns.

Module PumpRuns.
Import Pump.
Local Open Scope pump_scope.

(** The two endpoints of a pump and their kinds. *)
Definition endpoints (p : PumpObj)
    : option ref * option stype * option ref * option stype :=
  (source p, sourceType p, destination p, destinationType p).

(** A statement that assigns none of these four fields. *)
Definition keeps_endpoints {A} (m : M A) : Prop :=
  forall w, endpoints (self (m w).2) = endpoints (self w).

(** The owner of the stream at [r] has called [end()] on it:
    [_writableState.ended] is set. *)
Definition source_ends (r : ref) : M unit :=
  invoke (Some r) (fun s => (tt, set_wended true s)).

(** Whether the stream at [r] holds an unread item. *)
Definition holds_data (r : ref) (w : World) : bool :=
  match heap w !! r with
  | Some s => match rbuffer s with [] => false | _ :: _ => true end
  | None => false
  end.

(** A run in which every event meets a world that allows it. *)
Fixpoint well_timed (ok : event -> World -> bool) (es : list event)
    (w : World) : bool :=
  match es with
  | [] => true
  | e :: rest => ok e w && well_timed ok rest (deliver e w).2
  end.

(** What may happen around a pump between a readable source [s] and a
    readable destination [d]: data arrives at the source, the source
    announces ['readable'] while it holds an unread item, the destination
    asks for data through [_read], a consumer takes an item from the
    destination. *)
Definition pull_pull_event (s d : ref) (e : event) (w : World) : bool :=
  match e with
  | Arrive r (VChunk _) => bool_decide (r = s)
  | Emit r ev => bool_decide (r = s) && String.eqb ev "readable" && holds_data s w
  | CallRead r _ => bool_decide (r = d)
  | Consume r => bool_decide (r = d)
  | _ => false
  end.

(** The pump between a readable source [s] and a readable destination
    [d] while no handler runs: the source holds the unread items
    [pending], the destination was pushed [delivered], and a source marked
    ready holds data. *)
Definition pull_pull_inv (s d : ref) (pending delivered : list value)
    (w : World) : Prop :=
  endpoints (self w) = (Some s, Some readable, Some d, Some readable) /\
  sourceIsFinished (self w) = false /\
  (sourceIsReady (self w) = true -> pending <> []) /\
  exists S D,
    heap w !! s = Some S /\ heap w !! d = Some D /\
    rbuffer S = pending /\ listeners S = readable_source_listeners /\
    _read_is_pump D = true /\ calls D = CPush <$> delivered.

(** What may happen around a pump between a writable source [s] and a
    readable destination [d]: the stream machinery hands [_write] the next
    chunk once the previous one was acknowledged, the destination asks for
    data, a consumer takes an item from the destination. *)
Definition push_pull_event (s d : ref) (e : event) (w : World) : bool :=
  match e with
  | CallWrite r _ _ _ => bool_decide (r = s) && negb (sourceIsReady (self w))
  | CallRead r _ => bool_decide (r = d)
  | Consume r => bool_decide (r = d)
  | _ => false
  end.

(** The chunks handed to [_write] during a run, each with its callback. *)
Fixpoint written (es : list event) : list (value * callback) :=
  match es with
  | [] => []
  | CallWrite _ c _ n :: rest => (c, n) :: written rest
  | _ :: rest => written rest
  end.

(** The pump between a writable source [s] and a readable destination
    [d] while no handler runs: the chunks [done] were pushed and
    acknowledged, and [held] is the chunk, if any, waiting for the
    destination. *)
Definition push_pull_inv (s d : ref) (done held : list (value * callback))
    (w : World) : Prop :=
  endpoints (self w) = (Some s, Some writable, Some d, Some readable) /\
  sourceIsFinished (self w) = false /\
  called w = done.*2 /\
  (if sourceIsReady (self w)
   then exists c n, held = [(c, n)] /\ lastChunk (self w) = c /\
                    lastNext (self w) = Some n
   else held = []) /\
  exists S D,
    heap w !! s = Some S /\ heap w !! d = Some D /\
    _write_is_pump S = true /\ _read_is_pump D = true /\
    calls D = CPush <$> done.*1.

(** [_write] calls for a list of chunks with their encodings and
    callbacks. *)
Definition write_calls (s : ref) (ws : list (value * option string * callback))
    : list event :=
  (fun x => CallWrite s x.1.1 x.1.2 x.2) <$> ws.

(** The pump between a writable source [s] and a writable destination
    [d] while no handler runs: every chunk of [done] was written to the
    destination and acknowledged, nothing is held. *)
Definition push_push_inv (s d : ref) (done : list (value * callback))
    (w : World) : Prop :=
  endpoints (self w) = (Some s, Some writable, Some d, Some writable) /\
  sourceIsFinished (self w) = false /\
  sourceIsReady (self w) = false /\
  destinationIsReady (self w) = true /\
  called w = done.*2 /\ timers w = [] /\
  exists S D,
    heap w !! s = Some S /\ heap w !! d = Some D /\
    _write_is_pump S = true /\
    listeners S = [("finish", on_source_finish)] /\
    calls D = CWrite <$> done.*1.

(** ** More concrete worlds *)

(** A stream that is both readable and writable, untouched by any pump. *)
Definition fresh_duplex : Stream := mkStream true true [] false [] false false [].

(** A new pump among a duplex stream (1) and a writable stream (2). *)
Definition unregistered_push : World :=
  mkWorld new {[1 := fresh_duplex; 2 := fresh_writable]} [] [] [].

(** Writable source 1 and writable destination 2 registered. *)
Definition push_push_armed : World :=
  ((registerWritableSource 1 ;; registerWritableDestination 2) unregistered_push).2.

(** Readable source 1 and readable destination 3 registered, the
    destination holds the unread item "a", the source has emitted ['end'],
    and the first non-forced [destroy] has been deferred. *)
Definition pull_pull_draining : World :=
  (deliver (Emit 1 "end") pull_pull_buffered).2.

End PumpRuns.

(** * lib/event.js: the [EventStream] class and its subclasses *)
Module EventStream.

(** An event, [{name: ..., data: ..., timestamp: ...}]. *)
Record Event := mkEvent {
  name : string;
  data : value;
  timestamp : nat
}.

(** The first argument of [receive] and [receiveOnce]: a string, or an
    object with a [test] method (a [RegExp] is one). *)
Inductive name_arg :=
| NString (str : string)
| NTest (test : string -> bool).

(** The [test] in force after the [typeof name === 'string'] conversion:
    [function (val) { return val === str; }] for a string. *)
Definition to_test (a : name_arg) : string -> bool :=
  match a with
  | NString str => fun val => String.eqb val str
  | NTest t => t
  end.

(** A [handle] closure: its identity as a function object, the [test] and
    the callback [fn] it closes over, and whether [receiveOnce] made it. *)
Record Handle := mkHandle {
  hid : nat;
  test : string -> bool;
  fn : nat;
  once : bool
}.

(** The fields of an event stream: [eventStreamListeners]; the trace of
    [this.push] calls; the number of [next()] calls; the trace of
    [fn(chunk.data)] calls; and the number of handles created so far, which
    numbers the next one. *)
Record Stream := mkStream {
  eventStreamListeners : list Handle;
  pushed : list Event;
  nexts : nat;
  calls : list (nat * value);
  closures : nat
}.

(** [new EventStream()] *)
Definition new : Stream := mkStream [] [] 0 [] 0.

Definition set_listeners (l : list Handle) (st : Stream) : Stream :=
  mkStream l (pushed st) (nexts st) (calls st) (closures st).

(** [this.push(chunk)] *)
Definition push (chunk : Event) (st : Stream) : Stream :=
  mkStream (eventStreamListeners st) (pushed st ++ [chunk]) (nexts st)
           (calls st) (closures st).

(** [next()] *)
Definition next (st : Stream) : Stream :=
  mkStream (eventStreamListeners st) (pushed st) (S (nexts st))
           (calls st) (closures st).

(** [fn(chunk.data)] *)
Definition call_fn (f : nat) (d : value) (st : Stream) : Stream :=
  mkStream (eventStreamListeners st) (pushed st) (nexts st)
           (calls st ++ [(f, d)]) (closures st).

(** [array.indexOf(handle)]: the first position holding this very function
    object; [None] stands for [-1]. *)
Fixpoint indexOf (l : list Handle) (h : Handle) : option nat :=
  match l with
  | [] => None
  | x :: rest =>
      if Nat.eqb (hid x) (hid h) then Some 0 else S <$> indexOf rest h
  end.

(** [array.splice(pos, 1)]; a start of [-1] counts from the end. *)
Definition splice1 (pos : option nat) (l : list Handle) : list Handle :=
  match pos with
  | Some i => delete i l
  | None => removelast l
  end.

Definition removeReceiver (h : Handle) (st : Stream) : bool * Stream :=
  match indexOf (eventStreamListeners st) h with
  | None => (false, st)
  | Some _ =>
      (true,
       set_listeners
         (splice1 (indexOf (eventStreamListeners st) h) (eventStreamListeners st))
         st)
  end.

(** Calling a handle with a chunk. *)
Definition call_handle (h : Handle) (chunk : Event) (st : Stream) : Stream :=
  if test h (name chunk) then
    let st1 := if once h then (removeReceiver h st).2 else st in
    call_fn (fn h) (data chunk) st1
  else st.

(** [for (i = 0; i < this.eventStreamListeners.length; i += 1)
       this.eventStreamListeners[i](chunk);]
    The bound is read again before every iteration.  As no handle adds a
    listener, the length at entry bounds the number of iterations. *)
Fixpoint listeners_loop (fuel i : nat) (chunk : Event) (st : Stream) : Stream :=
  match fuel with
  | 0 => st
  | S fuel' =>
      match eventStreamListeners st !! i with
      | None => st
      | Some h => listeners_loop fuel' (S i) chunk (call_handle h chunk st)
      end
  end.

Definition _transform (chunk : Event) (st : Stream) : Stream :=
  let st1 := push chunk st in
  let st2 := listeners_loop (length (eventStreamListeners st1)) 0 chunk st1 in
  next st2.

(** [send(name, data)], with the value of [Date.now()]. *)
Definition send (n : string) (d : value) (now : nat) (st : Stream) : Stream :=
  push (mkEvent n d now) st.

Definition receive (a : name_arg) (f : nat) (st : Stream) : Handle * Stream :=
  let handle := mkHandle (closures st) (to_test a) f false in
  (handle,
   mkStream (eventStreamListeners st ++ [handle]) (pushed st) (nexts st)
            (calls st) (S (closures st))).

Definition receiveOnce (a : name_arg) (f : nat) (st : Stream) : Handle * Stream :=
  let handle := mkHandle (closures st) (to_test a) f true in
  (handle,
   mkStream (eventStreamListeners st ++ [handle]) (pushed st) (nexts st)
            (calls st) (S (closures st))).

(** ** Subclasses *)

(** [new EventStream.Filter(filter)]: a falsy argument ([undefined], the
    empty string) leaves the prototype's accept-all filter in place. *)
Definition Filter (filter : option name_arg) : string -> bool :=
  match filter with
  | None => fun _ => true
  | Some (NString "") => fun _ => true
  | Some a => to_test a
  end.

Definition Filter__transform (filter : string -> bool) (chunk : Event)
    (st : Stream) : Stream :=
  if filter (name chunk) then _transform chunk st else next st.

(** A constructor either returns or dies with a [TypeError]. *)
Inductive outcome (A : Type) :=
| Returns (a : A)
| ThrowsTypeError.
Arguments Returns {A} a.
Arguments ThrowsTypeError {A}.

(** [arg || this.prototype.field], the expression the four constructors
    below share.  [this] is the new instance; it has no [prototype], so
    the right operand reads a property of [undefined]. *)
Definition or_prototype_field (arg : option string) : outcome string :=
  match arg with
  | None => ThrowsTypeError
  | Some "" => ThrowsTypeError
  | Some p => Returns p
  end.

Definition Prefix (prefix : option string) : outcome string :=
  or_prototype_field prefix.
Definition Unprefix (prefix : option string) : outcome string :=
  or_prototype_field prefix.
Definition Postfix (postfix : option string) : outcome string :=
  or_prototype_field postfix.
Definition Unpostfix (postfix : option string) : outcome string :=
  or_prototype_field postfix.

(** The copy [tmp] of a chunk with [tmp.name] reassigned. *)
Definition rename (n : string) (chunk : Event) : Event :=
  mkEvent n (data chunk) (timestamp chunk).

(** [s.indexOf(pat)] *)
Definition str_indexOf (s pat : string) : Z :=
  match String.index 0 pat s with
  | Some i => Z.of_nat i
  | None => (-1)%Z
  end.

(** [s.substr(start)] *)
Definition substr (s : string) (start : nat) : string :=
  String.substring start (String.length s - start) s.

Definition Prefix__transform (prefix : string) (chunk : Event) (st : Stream)
    : Stream :=
  _transform (rename (prefix +:+ name chunk) chunk) st.

Definition Unprefix__transform (prefix : string) (chunk : Event) (st : Stream)
    : Stream :=
  if negb (Z.eqb (str_indexOf (name chunk) prefix) 0) then next st
  else _transform (rename (substr (name chunk) (String.length prefix)) chunk) st.

Definition Postfix__transform (postfix : string) (chunk : Event) (st : Stream)
    : Stream :=
  _transform (rename (name chunk +:+ postfix) chunk) st.

Definition Unpostfix__transform (postfix : string) (chunk : Event)
    (st : Stream) : Stream :=
  let index := str_indexOf (name chunk) postfix in
  if Z.ltb index 1 ||
     negb (Z.eqb (index + Z.of_nat (String.length postfix))
                 (Z.of_nat (String.length (name chunk))))
  then next st
  else
    _transform
      (rename (String.substring 0
                 (String.length (name chunk) - String.length postfix)
                 (name chunk)) chunk) st.

(** ** Vocabulary for the statements *)

(** One pass of the listener loop over the handles not yet visited: the
    handles that stay registered and the callbacks called, in order.  A
    [receiveOnce] handle that fires leaves the array, the handles behind it
    move up by one, and the index moves on: the handle right behind it is
    not visited. *)
Fixpoint visit (chunk : Event) (l : list Handle)
    : list Handle * list (nat * value) :=
  match l with
  | [] => ([], [])
  | h :: rest =>
      if test h (name chunk) then
        if once h then
          match rest with
          | [] => ([], [(fn h, data chunk)])
          | skipped :: rest' =>
              let '(keep, cs) := visit chunk rest' in
              (skipped :: keep, (fn h, data chunk) :: cs)
          end
        else
          let '(keep, cs) := visit chunk rest in
          (h :: keep, (fn h, data chunk) :: cs)
      else
        let '(keep, cs) := visit chunk rest in
        (h :: keep, cs)
  end.

(** The callbacks of the handles of [l] whose test accepts the chunk. *)
Definition matching_calls (chunk : Event) (l : list Handle) : list (nat * value) :=
  (fun h => (fn h, data chunk)) <$> filter (fun h => test h (name chunk) = true) l.

(** The identities of the registered handles. *)
Definition ids (st : Stream) : list nat := hid <$> eventStreamListeners st.

(** The handles are distinct function objects, all made earlier. *)
Definition well_formed (st : Stream) : Prop :=
  NoDup (ids st) /\ Forall (fun i => i < closures st) (ids st).

(** A handle made by [receive], never by [receiveOnce]. *)
Definition plain (h : Handle) : Prop := once h = false.

(** What can be done to an event stream or to an instance of a subclass. *)
Inductive op :=
| OpTransform (chunk : Event)
| OpFilter (filter : string -> bool) (chunk : Event)
| OpPrefix (prefix : string) (chunk : Event)
| OpUnprefix (prefix : string) (chunk : Event)
| OpPostfix (postfix : string) (chunk : Event)
| OpUnpostfix (postfix : string) (chunk : Event)
| OpSend (n : string) (d : value) (now : nat)
| OpReceive (a : name_arg) (f : nat)
| OpReceiveOnce (a : name_arg) (f : nat)
| OpRemove (h : Handle).

Definition step (o : op) (st : Stream) : Stream :=
  match o with
  | OpTransform chunk => _transform chunk st
  | OpFilter filter chunk => Filter__transform filter chunk st
  | OpPrefix p chunk => Prefix__transform p chunk st
  | OpUnprefix p chunk => Unprefix__transform p chunk st
  | OpPostfix q chunk => Postfix__transform q chunk st
  | OpUnpostfix q chunk => Unpostfix__transform q chunk st
  | OpSend n d now => send n d now st
  | OpReceive a f => (receive a f st).2
  | OpReceiveOnce a f => (receiveOnce a f st).2
  | OpRemove h => (removeReceiver h st).2
  end.

Definition run (os : list op) (st : Stream) : Stream :=
  foldl (fun acc o => step o acc) st os.

(** The operations that hand a chunk to some [_transform]. *)
Definition is_transform (o : op) : bool :=
  match o with
  | OpTransform _ | OpFilter _ _ | OpPrefix _ _ | OpUnprefix _ _
  | OpPostfix _ _ | OpUnpostfix _ _ => true
  | _ => false
  end.

End EventStream.

(** * Properties of the sluice *)

Section SluiceFacts.
Import Sluice.

Implicit Types (g : Gate) (c x : value) (q : list value) (cs : list chunk).

(** The loop moves the whole queue, in order, behind what was pushed
    before. *)
Lemma shift_loop_spec q g :
  shift_loop q g = mkGate [] (flowIn g) (flowOut g) (pushed g ++ q) (nexts g).
Proof.
  revert g. induction q as [|x rest IH]; intros g; simpl.
  - by rewrite app_nil_r.
  - rewrite IH. simpl. by rewrite <- app_assoc.
Qed.

Lemma _read_open g :
  flowOut g = true ->
  _read g = mkGate [] (flowIn g) true (pushed g ++ buffer g) (nexts g).
Proof. intros H. unfold _read. rewrite H. simpl. by rewrite shift_loop_spec, H. Qed.

Lemma _read_closed g : flowOut g = false -> _read g = g.
Proof. intros H. unfold _read. by rewrite H. Qed.

(** Whatever the valves say, [_read] keeps the flags and the callback
    count, and only moves queued items to the pushed side. *)
Lemma _read_flags g :
  flowIn (_read g) = flowIn g /\ flowOut (_read g) = flowOut g /\
  nexts (_read g) = nexts g.
Proof.
  destruct (flowOut g) eqn:E.
  - by rewrite (_read_open g E).
  - by rewrite (_read_closed g E).
Qed.

Lemma _read_history g : history (_read g) = history g.
Proof.
  unfold history. destruct (flowOut g) eqn:E.
  - rewrite (_read_open g E). simpl. by rewrite app_nil_r.
  - by rewrite (_read_closed g E).
Qed.

Lemma _read_pushed g : pushed g `prefix_of` pushed (_read g).
Proof.
  destruct (flowOut g) eqn:E.
  - rewrite (_read_open g E). simpl. by apply prefix_app_r.
  - by rewrite (_read_closed g E).
Qed.

Lemma _read_idem g : _read (_read g) = _read g.
Proof.
  destruct (flowOut g) eqn:E.
  - rewrite (_read_open g E). rewrite _read_open by done. simpl.
    by rewrite app_nil_r.
  - by rewrite !(_read_closed g E).
Qed.

(** [_write] queues its chunk at the tail whether the inlet is open or
    not. *)
Lemma _write_history c g : history (_write c g) = history g ++ [c].
Proof.
  unfold _write. rewrite _read_history. unfold history.
  destruct (flowIn g); simpl; by rewrite app_assoc.
Qed.

(** The write callback is invoked on the closed-inlet path only. *)
Lemma _write_nexts c g :
  nexts (_write c g) = if flowIn g then nexts g else S (nexts g).
Proof.
  unfold _write.
  destruct (_read_flags (set_buffer
    (buffer (if negb (flowIn g) then next g else g) ++ [c])
    (if negb (flowIn g) then next g else g))) as (_ & _ & ->).
  by destruct (flowIn g).
Qed.

Lemma _write_pushed c g : pushed g `prefix_of` pushed (_write c g).
Proof.
  unfold _write. etrans; [|apply _read_pushed].
  by destruct (flowIn g).
Qed.

Lemma step_history o g : exists added, history (step o g) = history g ++ added.
Proof.
  destruct o; simpl;
    unfold pourIn, pourOut, fullFlow, freeze, openOutlet, openInlet,
      closeInlet, closeOutlet, on_finish.
  - exists [c]. apply _write_history.
  - exists []. by rewrite _read_history, app_nil_r.
  - exists [VNull]. unfold history. simpl. by rewrite app_assoc.
  - exists []. by rewrite app_nil_r.
  - exists []. by rewrite app_nil_r.
  - exists []. by rewrite _read_history, app_nil_r.
  - exists []. by rewrite app_nil_r.
  - exists []. by rewrite app_nil_r.
  - exists []. rewrite app_nil_r.
    change (history (_read (set_flowOut true g)) = history g).
    by rewrite _read_history.
  - exists []. rewrite app_nil_r.
    change (history (_read (set_flowOut true g)) = history g).
    by rewrite _read_history.
  - exists []. by rewrite app_nil_r.
Qed.

Lemma step_pushed o g : pushed g `prefix_of` pushed (step o g).
Proof.
  destruct o; simpl;
    unfold pourIn, pourOut, fullFlow, freeze, openOutlet, openInlet,
      closeInlet, closeOutlet, on_finish; simpl; try done.
  - apply _write_pushed.
  - apply _read_pushed.
  - apply (_read_pushed (set_flowOut true g)).
  - apply (_read_pushed (set_flowOut true g)).
  - apply (_read_pushed (set_flowOut true g)).
Qed.

Lemma run_history os g : exists added, history (run os g) = history g ++ added.
Proof.
  revert g. induction os as [|o os IH]; intros g; simpl.
  - exists []. by rewrite app_nil_r.
  - destruct (step_history o g) as [a1 H1].
    destruct (IH (step o g)) as [a2 H2].
    exists (a1 ++ a2). unfold run in *. rewrite H2, H1. by rewrite app_assoc.
Qed.

Lemma run_pushed os g : pushed g `prefix_of` pushed (run os g).
Proof.
  revert g. induction os as [|o os IH]; intros g; simpl; [done|].
  etrans; [apply (step_pushed o)|]. apply IH.
Qed.

(** A step that hands anything downstream leaves the outlet open. *)
Lemma step_pushes_open o g :
  pushed (step o g) = pushed g \/ flowOut (step o g) = true.
Proof.
  assert (R : forall g0, pushed (_read g0) = pushed g0 \/ flowOut (_read g0) = true).
  { intros g0. destruct (flowOut g0) eqn:E.
    - right. by rewrite (_read_open g0 E).
    - left. by rewrite (_read_closed g0 E). }
  destruct o; simpl;
    unfold pourIn, pourOut, fullFlow, freeze, openOutlet, openInlet,
      closeInlet, closeOutlet, on_finish; simpl; auto.
  - unfold _write. destruct (flowOut g) eqn:E.
    + right. destruct (_read_flags (set_buffer
        (buffer (if negb (flowIn g) then next g else g) ++ [c])
        (if negb (flowIn g) then next g else g))) as (_ & -> & _).
      by destruct (flowIn g).
    + left. rewrite _read_closed; by destruct (flowIn g).
  - right. by rewrite _read_open.
  - right. by rewrite _read_open.
  - right. by rewrite _read_open.
Qed.

End SluiceFacts.

Section SluiceClaims.
Import Sluice.

Implicit Types (g : Gate) (cs : list chunk).

(** C1 (the code departs from it): a chunk written while the inlet is
    closed is not dropped.  [_write] acknowledges it with [next()] and then
    queues it like any other chunk: after [freeze] it sits in the buffer,
    and it is handed downstream as soon as the outlet is open. *)
Theorem closed_inlet_write_is_queued :
  let g := _write (VChunk "x") (freeze new) in
  flowIn (freeze new) = false /\
  buffer g = [VChunk "x"] /\
  nexts g = 1 /\
  pushed (fullFlow g) = [VChunk "x"] /\
  pushed (_write (VChunk "x") (closeInlet new)) = [VChunk "x"].
Proof. repeat split; reflexivity. Qed.

(** Once [_write] has taken a chunk with the inlet open, [next] is never
    called for it: every chunk written afterwards waits in the writable
    side's queue and does not reach the sluice. *)
Lemma open_inlet_write_stalls (c : value) (cs : list value) s :
  SluiceStream.awaiting s = false ->
  flowIn (SluiceStream.gate s) = true ->
  foldl (fun acc x => SluiceStream.write x acc) s (c :: cs)
    = SluiceStream.mkWritten (_write c (SluiceStream.gate s)) true
        (SluiceStream.waiting s ++ cs).
Proof.
  intros Ha Hin. simpl.
  assert (E : SluiceStream.write c s
              = SluiceStream.mkWritten (_write c (SluiceStream.gate s)) true
                  (SluiceStream.waiting s)).
  { unfold SluiceStream.write. rewrite Ha, _write_nexts, Hin.
    by rewrite Nat.eqb_refl. }
  rewrite E. clear E.
  generalize (SluiceStream.waiting s) as q.
  induction cs as [|x cs IH]; intros q; simpl.
  - by rewrite app_nil_r.
  - unfold SluiceStream.write at 2. simpl.
    rewrite IH. by rewrite <- app_assoc.
Qed.

(** C4 (the code departs from it): in fill mode [_write] takes the first
    chunk and queues it, but never calls [next] for it, so the chunks
    written after it are held back by the writable side and never reach the
    sluice.  Of [a], [b], [c] written after [pourIn], only [a] is in the
    buffer, and [pourOut] forwards only [a]; [b] and [c] are still
    waiting. *)
Theorem fill_then_drain_forwards_first_chunk_only :
  let filled :=
    SluiceStream.write (VChunk "c")
      (SluiceStream.write (VChunk "b")
         (SluiceStream.write (VChunk "a")
            (SluiceStream.pourIn SluiceStream.new))) in
  let drained := SluiceStream.pourOut filled in
  buffer (SluiceStream.gate filled) = [VChunk "a"] /\
  nexts (SluiceStream.gate filled) = 0 /\
  SluiceStream.waiting filled = [VChunk "b"; VChunk "c"] /\
  pushed (SluiceStream.gate drained) = [VChunk "a"] /\
  buffer (SluiceStream.gate drained) = [] /\
  nexts (SluiceStream.gate drained) = 0 /\
  SluiceStream.awaiting drained = true /\
  SluiceStream.waiting drained = [VChunk "b"; VChunk "c"].
Proof. repeat split; reflexivity. Qed.

(** C5: the ['finish'] listener appends the marker [null] to the tail of
    the queue and pushes nothing.  Whatever happens afterwards, the items
    leave in queue order: either the marker is still queued behind the part
    of the old queue not yet forwarded, or it was pushed after the whole
    old queue.  No queued chunk is lost, and a step that pushes anything
    leaves the outlet open. *)
Theorem finish_marker_waits_its_turn g (os : list op) :
  let g' := run os (on_finish g) in
  buffer (on_finish g) = buffer g ++ [VNull] /\
  pushed (on_finish g) = pushed g /\
  ((exists sent kept later,
       buffer g = sent ++ kept /\
       pushed g' = pushed g ++ sent /\
       buffer g' = kept ++ VNull :: later)
   \/
   (exists after kept,
       pushed g' = pushed g ++ buffer g ++ VNull :: after /\
       buffer g' = kept)) /\
  (forall o g0, pushed (step o g0) = pushed g0 \/ flowOut (step o g0) = true).
Proof.
  intros g'. split; [done|]. split; [done|]. split; [|apply step_pushes_open].
  destruct (run_history os (on_finish g)) as [added Hh].
  destruct (run_pushed os (on_finish g)) as [k Hk].
  fold g' in Hh, Hk. unfold history in Hh. simpl in Hh, Hk.
  rewrite Hk, <- !app_assoc in Hh. apply app_inv_head in Hh.
  apply app_eq_inv in Hh as [(k0 & -> & Hrest)|(k0 & Hbuf & Hrest)].
  - destruct k0 as [|m after].
    + left. exists (buffer g), [], added. simpl in Hrest.
      rewrite !app_nil_r in *. by rewrite Hrest.
    + right. simpl in Hrest. injection Hrest as <- ->.
      exists after, (buffer g'). by rewrite Hk.
  - left. exists k, k0, added. by rewrite Hrest.
Qed.

(** The effect of each valve on the receiver's fields is idempotent. *)
Lemma openOutlet_spec g :
  openOutlet g = mkGate [] (flowIn g) true (pushed g ++ buffer g) (nexts g).
Proof. unfold openOutlet. by rewrite _read_open. Qed.

Lemma valve_effects_idempotent g :
  openInlet (openInlet g) = openInlet g /\
  closeInlet (closeInlet g) = closeInlet g /\
  openOutlet (openOutlet g) = openOutlet g /\
  closeOutlet (closeOutlet g) = closeOutlet g /\
  pourIn (pourIn g) = pourIn g /\
  pourOut (pourOut g) = pourOut g /\
  fullFlow (fullFlow g) = fullFlow g /\
  freeze (freeze g) = freeze g.
Proof.
  unfold pourIn, pourOut, fullFlow, freeze.
  repeat split; try reflexivity;
    unfold closeInlet, openInlet; rewrite !openOutlet_spec; simpl;
    by rewrite app_nil_r.
Qed.

(** A call on the object at [this] is the effect on its fields, and the
    receiver comes back. *)
Lemma obj_calls this (h : gmap ref Gate) :
  Obj.openInlet this h = (this, alter openInlet this h) /\
  Obj.closeInlet this h = (this, alter closeInlet this h) /\
  Obj.openOutlet this h = (this, alter openOutlet this h) /\
  Obj.closeOutlet this h = (this, alter closeOutlet this h) /\
  Obj.pourIn this h = (this, alter pourIn this h) /\
  Obj.pourOut this h = (this, alter pourOut this h) /\
  Obj.fullFlow this h = (this, alter fullFlow this h) /\
  Obj.freeze this h = (this, alter freeze this h).
Proof.
  unfold Obj.pourIn, Obj.pourOut, Obj.fullFlow, Obj.freeze,
    Obj.openInlet, Obj.closeInlet, Obj.openOutlet, Obj.closeOutlet.
  repeat split; try reflexivity; by rewrite !alter_alter_eq.
Qed.

Lemma lift_idempotent (f : Gate -> Gate) this (h : gmap ref Gate) :
  (forall g, f (f g) = f g) ->
  alter f this (alter f this h) = alter f this h.
Proof.
  intros Hf. rewrite alter_alter_eq. apply alter_ext. intros g _. apply Hf.
Qed.

(** C9: each of the eight valve methods returns the sluice it was called
    on and is idempotent, and the composites are the chained calls: fill is
    close outlet then open inlet, drain is open outlet then close inlet,
    full flow opens both, freeze closes both. *)
Theorem valves_chain_and_are_idempotent :
  (Obj.chainable_idempotent Obj.openInlet /\
   Obj.chainable_idempotent Obj.closeInlet /\
   Obj.chainable_idempotent Obj.openOutlet /\
   Obj.chainable_idempotent Obj.closeOutlet /\
   Obj.chainable_idempotent Obj.pourIn /\
   Obj.chainable_idempotent Obj.pourOut /\
   Obj.chainable_idempotent Obj.fullFlow /\
   Obj.chainable_idempotent Obj.freeze) /\
  (forall this h,
     Obj.pourIn this h = Obj.openInlet this (Obj.closeOutlet this h).2 /\
     Obj.pourOut this h = Obj.closeInlet this (Obj.openOutlet this h).2 /\
     Obj.fullFlow this h = Obj.openInlet this (Obj.openOutlet this h).2 /\
     Obj.freeze this h = Obj.closeInlet this (Obj.closeOutlet this h).2).
Proof.
  split; [|by intros this h].
  unfold Obj.chainable_idempotent.
  repeat split; try reflexivity;
    destruct (obj_calls this h) as (E1 & E2 & E3 & E4 & E5 & E6 & E7 & E8);
    rewrite ?E1, ?E2, ?E3, ?E4, ?E5, ?E6, ?E7, ?E8; try reflexivity; simpl.
  - destruct (obj_calls this (alter openInlet this h)) as (-> & _).
    f_equal. apply lift_idempotent. intros g. apply valve_effects_idempotent.
  - destruct (obj_calls this (alter closeInlet this h)) as (_ & -> & _).
    f_equal. apply lift_idempotent. intros g. apply valve_effects_idempotent.
  - destruct (obj_calls this (alter openOutlet this h)) as (_ & _ & -> & _).
    f_equal. apply lift_idempotent. intros g. apply valve_effects_idempotent.
  - destruct (obj_calls this (alter closeOutlet this h)) as (_ & _ & _ & -> & _).
    f_equal. apply lift_idempotent. intros g. apply valve_effects_idempotent.
  - destruct (obj_calls this (alter pourIn this h)) as (_ & _ & _ & _ & -> & _).
    f_equal. apply lift_idempotent. intros g. apply valve_effects_idempotent.
  - destruct (obj_calls this (alter pourOut this h)) as (_ & _ & _ & _ & _ & -> & _).
    f_equal. apply lift_idempotent. intros g. apply valve_effects_idempotent.
  - destruct (obj_calls this (alter fullFlow this h)) as (_ & _ & _ & _ & _ & _ & -> & _).
    f_equal. apply lift_idempotent. intros g. apply valve_effects_idempotent.
  - destruct (obj_calls this (alter freeze this h)) as (_ & _ & _ & _ & _ & _ & _ & ->).
    f_equal. apply lift_idempotent. intros g. apply valve_effects_idempotent.
Qed.

(** C10 (the code departs from it): a new sluice has both valves open, and
    the first chunk written is forwarded at once.  [_write] does not call
    [next] for it, so the chunks written after it are held back by the
    writable side: of [a], [b], [c] written to a new sluice only [a] is
    forwarded. *)
Theorem new_sluice_forwards_first_chunk_only :
  let s :=
    SluiceStream.write (VChunk "c")
      (SluiceStream.write (VChunk "b")
         (SluiceStream.write (VChunk "a") SluiceStream.new)) in
  flowIn (SluiceStream.gate SluiceStream.new) = true /\
  flowOut (SluiceStream.gate SluiceStream.new) = true /\
  pushed (SluiceStream.gate s) = [VChunk "a"] /\
  buffer (SluiceStream.gate s) = [] /\
  nexts (SluiceStream.gate s) = 0 /\
  SluiceStream.awaiting s = true /\
  SluiceStream.waiting s = [VChunk "b"; VChunk "c"].
Proof. repeat split; reflexivity. Qed.

End SluiceClaims.

(** * Properties of the pump *)

Section PumpFacts.
Import Pump.
Local Open Scope pump_scope.

Implicit Types (w : World) (s d r : ref) (h : gmap ref Stream).

Ltac run_monad :=
  unfold bind, ret, throw, gets, assign, peek, invoke, setTimeout,
    console_log, call_next, wait; simpl.

(** Resolve the next lookup in the store and go on evaluating. *)
Ltac look :=
  repeat (first
    [ rewrite lookup_insert_eq
    | rewrite lookup_insert_ne by done
    | match goal with
      | H : ?h !! ?k = Some _ |- context [?h !! ?k] => rewrite H
      end ]; simpl).

(** ** Termination *)

Lemma destroy_forced_readable w d D :
  destinationType (self w) = Some readable ->
  destination (self w) = Some d ->
  heap w !! d = Some D ->
  destroy true w = (Ok tt, after_call d (push VNull) D w).
Proof.
  intros Ht Hd HD. unfold destroy. run_monad. rewrite Ht, Hd. simpl.
  by rewrite HD.
Qed.

Lemma destroy_pending_readable w d D :
  destinationType (self w) = Some readable ->
  destination (self w) = Some d ->
  heap w !! d = Some D ->
  rbuffer D <> [] ->
  destroy false w = (Ok tt, deferred w).
Proof.
  intros Ht Hd HD Hne. unfold destroy. run_monad. rewrite Ht, Hd. simpl.
  rewrite HD. simpl. destruct (rbuffer D); [done|]. reflexivity.
Qed.

Lemma destroy_drained_readable w d D :
  destinationType (self w) = Some readable ->
  destination (self w) = Some d ->
  heap w !! d = Some D ->
  rbuffer D = [] ->
  sourceType (self w) <> Some writable ->
  destroy false w = (Ok tt, after_call d (push VNull) D w).
Proof.
  intros Ht Hd HD He Hs. unfold destroy. run_monad. rewrite Ht, Hd. simpl.
  rewrite HD. simpl. rewrite He. simpl.
  destruct (sourceType (self w)) as [[]|]; simpl; try done; by rewrite HD.
Qed.

(** C3: with a readable destination whose buffer still holds data, a
    non-forced [destroy] does not push [null]: it prints a line, schedules
    itself again through a zero-delay timer and leaves every stream as it
    was; the scheduled call is again non-forced, as are the calls from
    [pump] and from the ['error'] listener.  Once the buffer is empty (and
    the source is not a writable one) the non-forced call pushes [null]; a
    forced call pushes [null] whatever the buffer holds. *)
Theorem destroy_defers_while_destination_buffers w d D :
  destinationType (self w) = Some readable ->
  destination (self w) = Some d ->
  heap w !! d = Some D ->
  (rbuffer D <> [] ->
     destroy false w = (Ok tt, deferred w) /\
     heap (deferred w) = heap w /\
     fire_timer (mkWorld (self w) (heap w) [task_destroy] (console w) (called w))
       = destroy false (mkWorld (self w) (heap w) [] (console w) (called w))) /\
  (rbuffer D = [] -> sourceType (self w) <> Some writable ->
     destroy false w = (Ok tt, after_call d (push VNull) D w)) /\
  destroy true w = (Ok tt, after_call d (push VNull) D w) /\
  run_task task_destroy = destroy false /\
  run_listener on_source_error = destroy false.
Proof.
  intros Ht Hd HD. split; [|split; [|split]].
  - intros Hne. split; [|done]. by apply (destroy_pending_readable w d D).
  - intros He Hs. by apply (destroy_drained_readable w d D).
  - by apply (destroy_forced_readable w d D).
  - done.
Qed.

Lemma destroy_defers_witness :
  destroy false pull_pull_buffered = (Ok tt, deferred pull_pull_buffered) /\
  heap (deferred pull_pull_buffered) = heap pull_pull_buffered.
Proof.
  destruct (destroy_defers_while_destination_buffers pull_pull_buffered 3
              (set_rbuffer [VChunk "a"] (set__read fresh_readable))
              eq_refl eq_refl ltac:(vm_compute; reflexivity))
    as (H & _).
  destruct (H ltac:(discriminate)) as (H1 & H2 & _).
  split; [exact H1 | exact H2].
Defined.

(** ** Registration *)

Lemma register_source_twice w r :
  is_Some (source (self w)) ->
  registerReadableSource r w = (Throw (Error "There is already a source"), w) /\
  registerWritableSource r w = (Throw (Error "There is already a source"), w).
Proof.
  intros [x Hx]. unfold registerReadableSource, registerWritableSource.
  run_monad. by rewrite Hx.
Qed.

Lemma register_destination_twice w r :
  is_Some (destination (self w)) ->
  registerReadableDestination r w
    = (Throw (Error "There is already a destination"), w) /\
  registerWritableDestination r w
    = (Throw (Error "There is already a destination"), w).
Proof.
  intros [x Hx]. unfold registerReadableDestination, registerWritableDestination.
  run_monad. by rewrite Hx.
Qed.

Lemma register_incapable w r S :
  heap w !! r = Some S ->
  (source (self w) = None -> s_readable S = false ->
     registerReadableSource r w = (Throw (Error "This stream is not readable"), w)) /\
  (source (self w) = None -> s_writable S = false ->
     registerWritableSource r w = (Throw (Error "This stream is not writable"), w)) /\
  (destination (self w) = None -> s_readable S = false ->
     registerReadableDestination r w
       = (Throw (Error "This stream is not readable"), w)) /\
  (destination (self w) = None -> s_writable S = false ->
     registerWritableDestination r w
       = (Throw (Error "This stream is not writable"), w)).
Proof.
  intros HS.
  unfold registerReadableSource, registerWritableSource,
    registerReadableDestination, registerWritableDestination.
  run_monad.
  repeat split; intros -> Hc; simpl; rewrite HS; simpl; by rewrite Hc.
Qed.

(** Whatever the reason, a registration that throws has assigned nothing. *)
Lemma register_throw_unchanged w r e w' :
  (registerReadableSource r w = (Throw e, w') -> w' = w) /\
  (registerWritableSource r w = (Throw e, w') -> w' = w) /\
  (registerReadableDestination r w = (Throw e, w') -> w' = w) /\
  (registerWritableDestination r w = (Throw e, w') -> w' = w).
Proof.
  unfold registerReadableSource, registerWritableSource,
    registerReadableDestination, registerWritableDestination.
  run_monad.
  repeat split; intros H;
    repeat (case_match; simpl in *; simplify_eq;
            rewrite ?lookup_insert_eq in *); done.
Qed.

(** C6: registering a source on a pump that has one, a destination on a
    pump that has one, or a stream without the required [readable] /
    [writable] flag throws, and the world after the throw is the world
    before it: no field of the pump and no stream has changed, so the
    endpoint registered earlier keeps its listeners and its place. *)
Theorem failed_registration_changes_nothing w r S :
  heap w !! r = Some S ->
  (is_Some (source (self w)) ->
     registerReadableSource r w = (Throw (Error "There is already a source"), w) /\
     registerWritableSource r w = (Throw (Error "There is already a source"), w)) /\
  (is_Some (destination (self w)) ->
     registerReadableDestination r w
       = (Throw (Error "There is already a destination"), w) /\
     registerWritableDestination r w
       = (Throw (Error "There is already a destination"), w)) /\
  (source (self w) = None -> s_readable S = false ->
     registerReadableSource r w = (Throw (Error "This stream is not readable"), w)) /\
  (source (self w) = None -> s_writable S = false ->
     registerWritableSource r w = (Throw (Error "This stream is not writable"), w)) /\
  (destination (self w) = None -> s_readable S = false ->
     registerReadableDestination r w
       = (Throw (Error "This stream is not readable"), w)) /\
  (destination (self w) = None -> s_writable S = false ->
     registerWritableDestination r w
       = (Throw (Error "This stream is not writable"), w)) /\
  (forall e w',
     (registerReadableSource r w = (Throw e, w') -> w' = w) /\
     (registerWritableSource r w = (Throw e, w') -> w' = w) /\
     (registerReadableDestination r w = (Throw e, w') -> w' = w) /\
     (registerWritableDestination r w = (Throw e, w') -> w' = w)).
Proof.
  intros HS.
  split; [apply register_source_twice|].
  split; [apply register_destination_twice|].
  destruct (register_incapable w r S HS) as (H1 & H2 & H3 & H4).
  repeat (split; [assumption|]).
  intros e w'. apply register_throw_unchanged.
Qed.

(** On the armed pump a second source is refused, and the first source
    still drives a transfer afterwards. *)
Lemma failed_registration_witness :
  registerReadableSource 3 armed
    = (Throw (Error "There is already a source"), armed) /\
  registerWritableDestination 1 unregistered
    = (Throw (Error "This stream is not writable"), unregistered) /\
  calls <$> heap (deliver_all [Arrive 1 (VChunk "a"); Emit 1 "readable"]
                    (registerReadableSource 3 armed).2).2 !! 2
    = Some [CWrite (VChunk "a")].
Proof.
  destruct (failed_registration_changes_nothing armed 3 fresh_readable
              ltac:(vm_compute; reflexivity)) as (H1 & _).
  destruct (H1 ltac:(by eexists)) as (H1a & _).
  destruct (failed_registration_changes_nothing unregistered 1 fresh_readable
              ltac:(vm_compute; reflexivity)) as (_ & _ & _ & _ & _ & H6 & _).
  split; [exact H1a|]. split; [exact (H6 eq_refl eq_refl)|].
  rewrite H1a. vm_compute. reflexivity.
Defined.

(** ** The transfer attempt *)

Lemma pump_not_ready w :
  sourceIsReady (self w) && destinationIsReady (self w) = false ->
  pump w = if sourceIsFinished (self w) then destroy false w else (Ok tt, w).
Proof.
  intros H. unfold pump. run_monad. rewrite H.
  by destruct (sourceIsFinished (self w)).
Qed.

(** [destroy] assigns no field of the pump, and a stream is at most sent
    one end signal. *)
Lemma destroy_effect force w :
  self (destroy force w).2 = self w /\
  forall r, option_Forall2 end_signal_only (heap w !! r) (heap (destroy force w).2 !! r).
Proof.
  assert (Same : forall h r, option_Forall2 end_signal_only (h !! r) (h !! r)).
  { intros h r. destruct (h !! r); constructor. by left. }
  assert (Upd : forall h d D D' r, h !! d = Some D -> end_signal_only D D' ->
            option_Forall2 end_signal_only (h !! r) (<[d := D']> h !! r)).
  { intros h d D D' r HD HE. destruct (decide (d = r)) as [->|Hne].
    - rewrite lookup_insert_eq, HD. by constructor.
    - rewrite lookup_insert_ne by done. apply Same. }
  unfold destroy. run_monad.
  destruct force; simpl;
    repeat (case_match; simpl in *; simplify_eq); split; try done;
    intros x; try apply Same;
    (eapply Upd; [eassumption|]); unfold end_signal_only; auto.
Qed.

(** C7, as the code has it: when the two readiness flags do not both hold,
    [pump] transfers no chunk and assigns no field of the pump.  If the
    source has not finished the call changes nothing at all; if it has, the
    call is the non-forced [destroy], which may send the destination its
    end signal or schedule a re-check. *)
Theorem pump_without_readiness w :
  sourceIsReady (self w) && destinationIsReady (self w) = false ->
  (sourceIsFinished (self w) = false -> pump w = (Ok tt, w)) /\
  (sourceIsFinished (self w) = true -> pump w = destroy false w) /\
  self (pump w).2 = self w /\
  (forall r, option_Forall2 end_signal_only (heap w !! r) (heap (pump w).2 !! r)).
Proof.
  intros H. rewrite (pump_not_ready w H).
  destruct (sourceIsFinished (self w)).
  - repeat split; try done; apply destroy_effect.
  - repeat split; try done. intros r. simpl.
    destruct (heap w !! r); constructor. by left.
Qed.

Lemma pump_without_readiness_witness :
  pump armed = (Ok tt, armed) /\
  pump ended = destroy false ended /\
  self (pump ended).2 = self ended.
Proof.
  destruct (pump_without_readiness armed eq_refl) as (H1 & _).
  destruct (pump_without_readiness ended eq_refl) as (_ & H2 & H3 & _).
  split; [exact (H1 eq_refl)|]. split; [exact (H2 eq_refl) | exact H3].
Defined.

(** C7, as the claim has it, fails: once the source has emitted ['end'],
    a further [pump] without readiness is not a no-op.  It calls [end()]
    on the writable destination again. *)
Lemma pump_after_end_is_not_a_noop :
  sourceIsReady (self ended) && destinationIsReady (self ended) = false /\
  pump ended <> (Ok tt, ended) /\
  calls <$> heap ended !! 2 = Some [CEnd] /\
  calls <$> heap (pump ended).2 !! 2 = Some [CEnd; CEnd].
Proof.
  split; [reflexivity|]. split; [|split; vm_compute; reflexivity].
  intros H. apply (f_equal (fun x => calls <$> heap x.2 !! 2)) in H.
  vm_compute in H. discriminate.
Qed.

(** [pump] does not set [sourceIsReady]. *)
Lemma pump_keeps_source_unready w :
  sourceIsReady (self w) = false ->
  sourceIsReady (self (pump w).2) = false.
Proof.
  intros H. rewrite pump_not_ready by (by rewrite H).
  destruct (sourceIsFinished (self w)); [|done].
  by destruct (destroy_effect false w) as [-> _].
Qed.

(** Of the closures the pump hands out, only the ['readable'] listener
    and the [_write] it installs on a writable source set [sourceIsReady];
    a stream whose [_write] is not the pump's leaves the pump alone. *)
Lemma source_readiness_setters w :
  sourceIsReady (self w) = false ->
  (forall l, l <> on_source_readable ->
     sourceIsReady (self (run_listener l w).2) = false) /\
  (forall t, sourceIsReady (self (run_task t w).2) = false) /\
  (forall r bytes, sourceIsReady (self (call__read r bytes w).2) = false) /\
  (forall r R c e n, heap w !! r = Some R -> _write_is_pump R = false ->
     call__write r c e n w = (Ok tt, w)).
Proof.
  intros H.
  assert (Fin : sourceIsReady
            (self ((assign (set_sourceIsFinished true) ;; pump) w).2) = false).
  { unfold bind, assign. simpl. by apply pump_keeps_source_unready. }
  assert (Des : sourceIsReady (self (destroy false w).2) = false).
  { by destruct (destroy_effect false w) as [-> _]. }
  split; [|split; [|split]].
  - intros [] Hl; simpl; try done.
  - intros []; simpl; done.
  - intros r bytes. unfold call__read, bind, peek.
    destruct (heap w !! r) as [R|]; [|done].
    destruct (_read_is_pump R); [|done].
    unfold assign. simpl. by apply pump_keeps_source_unready.
  - intros r R c e n HR Hw. unfold call__write, bind, peek.
    by rewrite HR, Hw.
Qed.

(** C8, as the code has it: with a readable source and a readable
    destination, both ready, one [pump] calls the source's [read()] once,
    hands what it returns (the oldest item, or [null] from an empty source)
    to the destination's [push], and asks the source for its next
    ['readable'] with [read(0)] unless the source has finished.  Both
    readiness flags are cleared by the transfer.  Afterwards the source's
    flag is set by the ['readable'] listener, and by none of the pump's
    other listeners, its timers or the destination's [_read]. *)
Theorem pull_to_pull_transfer w s d S D :
  sourceType (self w) = Some readable ->
  destinationType (self w) = Some readable ->
  source (self w) = Some s ->
  destination (self w) = Some d ->
  s <> d ->
  heap w !! s = Some S ->
  heap w !! d = Some D ->
  sourceIsReady (self w) = true ->
  destinationIsReady (self w) = true ->
  exists w',
    pump w = (Ok tt, w') /\
    self w' = set_destinationIsReady false (set_sourceIsReady false (self w)) /\
    sourceIsReady (self w') = false /\
    destinationIsReady (self w') = false /\
    heap w' !! d = Some (push (read S).1 D).2 /\
    heap w' !! s =
      Some (if sourceIsFinished (self w)
            then (read S).2
            else log CRead0 (read S).2) /\
    (forall r, r <> s -> r <> d -> heap w' !! r = heap w !! r) /\
    timers w' = timers w /\ console w' = console w /\ called w' = called w /\
    sourceIsReady (self (run_listener on_source_readable w').2) = true /\
    (forall l, l <> on_source_readable ->
       sourceIsReady (self (run_listener l w').2) = false) /\
    (forall t, sourceIsReady (self (run_task t w').2) = false) /\
    (forall r bytes, sourceIsReady (self (call__read r bytes w').2) = false) /\
    (forall r R c e n, heap w' !! r = Some R -> _write_is_pump R = false ->
       call__write r c e n w' = (Ok tt, w')).
Proof.
  intros Hst Hdt Hs Hd Hne HS HD Hsr Hdr.
  assert (T : exists w',
    pump w = (Ok tt, w') /\
    self w' = set_destinationIsReady false (set_sourceIsReady false (self w)) /\
    heap w' !! d = Some (push (read S).1 D).2 /\
    heap w' !! s =
      Some (if sourceIsFinished (self w)
            then (read S).2
            else log CRead0 (read S).2) /\
    (forall r, r <> s -> r <> d -> heap w' !! r = heap w !! r) /\
    timers w' = timers w /\ console w' = console w /\ called w' = called w).
  { destruct w as [p h t c k].
    destruct p as [src dst sr fin st bytes dr dt lc ln le]. simpl in *. subst.
    unfold pump, onPump, arg_read. run_monad.
    rewrite HS. destruct (read S) as [v S1] eqn:HR. simpl.
    rewrite lookup_insert_ne by done. rewrite HD.
    destruct (push v D) as [[] D'] eqn:HP. simpl.
    destruct fin; simpl.
    - eexists. split; [reflexivity|]. simpl.
      rewrite lookup_insert_eq, lookup_insert_ne, lookup_insert_eq by done.
      repeat split; try done.
      intros r Hrs Hrd. by rewrite !lookup_insert_ne.
    - rewrite lookup_insert_ne, lookup_insert_eq by done. simpl.
      eexists. split; [reflexivity|]. simpl.
      rewrite lookup_insert_eq, lookup_insert_ne, lookup_insert_eq by done.
      repeat split; try done.
      intros r Hrs Hrd. by rewrite !lookup_insert_ne. }
  destruct T as (w' & Hp & Hself & Hd' & Hs' & Hfr & Ht & Hc & Hk).
  assert (Hsr' : sourceIsReady (self w') = false) by by rewrite Hself.
  assert (Hdr' : destinationIsReady (self w') = false) by by rewrite Hself.
  destruct (source_readiness_setters w' Hsr') as (L & Tk & Rd & Wr).
  exists w'. repeat (split; [assumption|]).
  split; [|by repeat split].
  simpl. unfold bind, assign. simpl.
  rewrite pump_not_ready by (simpl; by rewrite Hdr').
  simpl. destruct (sourceIsFinished (self w')); [|done].
  by destruct (destroy_effect false
    (mkWorld (set_sourceIsReady true (self w')) (heap w') (timers w')
       (console w') (called w'))) as [-> _].
Qed.

Lemma pull_to_pull_transfer_witness :
  exists w',
    pump pull_pull_ready = (Ok tt, w') /\
    sourceIsReady (self w') = false /\
    destinationIsReady (self w') = false /\
    calls <$> heap w' !! 3 = Some [CPush (VChunk "a")] /\
    calls <$> heap w' !! 1 = Some [CRead; CRead0] /\
    sourceIsReady (self (run_listener on_source_readable w').2) = true /\
    sourceIsReady (self (run_listener on_source_end w').2) = false.
Proof.
  destruct (pull_to_pull_transfer pull_pull_ready 1 3
              (set_rbuffer [VChunk "a"]
                 (add_listener "end" on_source_end
                    (add_listener "error" on_source_error
                       (add_listener "readable" on_source_readable fresh_readable))))
              (set__read fresh_readable)
              eq_refl eq_refl eq_refl eq_refl ltac:(discriminate)
              ltac:(vm_compute; reflexivity) ltac:(vm_compute; reflexivity)
              eq_refl eq_refl)
    as (w' & Hp & _ & Hsr & Hdr & Hd & Hs & _ & _ & _ & _ & Hon & Hoff & _).
  exists w'. split; [exact Hp|]. split; [exact Hsr|]. split; [exact Hdr|].
  split; [exact (f_equal (fmap calls) Hd)|].
  split; [exact (f_equal (fmap calls) Hs)|].
  split; [exact Hon|]. apply Hoff. discriminate.
Defined.

(** C8, as the claim has it, fails: the source's readiness flag does not
    survive a transfer between a readable source and a readable
    destination.  It was set before [pump] and is cleared after it. *)
Lemma pull_to_pull_clears_source_readiness :
  sourceType (self pull_pull_ready) = Some readable /\
  destinationType (self pull_pull_ready) = Some readable /\
  sourceIsReady (self pull_pull_ready) = true /\
  destinationIsReady (self pull_pull_ready) = true /\
  (pump pull_pull_ready).1 = Ok tt /\
  sourceIsReady (self (pump pull_pull_ready).2) = false.
Proof. repeat split; vm_compute; reflexivity. Qed.

(** ** Readable source to writable destination *)

(** C2 (the code departs from it): a readable source announces
    ['readable'] once more when the end of its data is reached, and
    [read()] then returns [null].  The pump does not look at what it read:
    after [a], [b], [c] were forwarded and the source is empty, this
    ['readable'] makes it call [write(null)] on the destination, a fourth
    write for three chunks. *)
Theorem pull_to_push_forwards_null_at_end_of_data :
  let w3 :=
    (deliver_all [Arrive 1 (VChunk "a"); Emit 1 "readable";
                  Arrive 1 (VChunk "b"); Emit 1 "readable";
                  Arrive 1 (VChunk "c"); Emit 1 "readable"] armed).2 in
  calls <$> heap w3 !! 2
    = Some [CWrite (VChunk "a"); CWrite (VChunk "b"); CWrite (VChunk "c")] /\
  rbuffer <$> heap w3 !! 1 = Some [] /\
  calls <$> heap (deliver (Emit 1 "readable") w3).2 !! 2
    = Some [CWrite (VChunk "a"); CWrite (VChunk "b"); CWrite (VChunk "c");
            CWrite VNull].
Proof. repeat split; vm_compute; reflexivity. Qed.

End PumpFacts.

(** * Further properties of the sluice *)

Section SluiceRunFacts.
Import Sluice SluiceRuns.

Implicit Types (g : Gate) (os : list op).

Lemma run_cons o os g : run (o :: os) g = run os (step o g).
Proof. reflexivity. Qed.

Lemma step_history_inputs o g : history (step o g) = history g ++ inputs [o].
Proof.
  destruct o; simpl;
    unfold pourIn, pourOut, fullFlow, freeze, openOutlet, openInlet,
      closeInlet, closeOutlet, on_finish; rewrite ?app_nil_r;
    first
      [ reflexivity
      | apply _write_history
      | apply _read_history
      | apply (_read_history (set_flowOut true g))
      | change (history (_read (set_flowOut true g)) = history g);
        apply _read_history
      | unfold history; simpl; by rewrite app_assoc ].
Qed.

Lemma run_history_inputs os g : history (run os g) = history g ++ inputs os.
Proof.
  revert g. induction os as [|o os IH]; intros g.
  - simpl. by rewrite app_nil_r.
  - rewrite run_cons, IH, step_history_inputs, <- app_assoc.
    f_equal. by destruct o.
Qed.

(** X1: over any sequence of writes, reads, finishes and valve calls, the
    items already pushed followed by the items still queued are the old
    ones followed by everything handed in since, in the order handed in.
    No operation drops, duplicates or reorders an item, whatever the
    valves say. *)
Theorem sluice_keeps_every_item_in_order os g :
  history (run os g) = history g ++ inputs os.
Proof. apply run_history_inputs. Qed.

Lemma step_closed_outlet o g :
  flowOut g = false -> opens_outlet o = false ->
  flowOut (step o g) = false /\ pushed (step o g) = pushed g.
Proof.
  intros Hc Ho. destruct o; simpl in *; try done;
    unfold pourIn, freeze, openInlet, closeInlet, closeOutlet, on_finish;
    simpl; try done.
  - unfold _write. rewrite _read_closed; by destruct (flowIn g).
  - by rewrite _read_closed.
Qed.

(** X2: while the outlet is closed nothing is pushed.  Over any run that
    starts with [flowOut] false and contains no [openOutlet], [pourOut] or
    [fullFlow], the pushed trace stays as it was and everything handed in
    piles up in the buffer. *)
Theorem closed_outlet_forwards_nothing os g :
  flowOut g = false ->
  forallb (fun o => negb (opens_outlet o)) os = true ->
  pushed (run os g) = pushed g /\
  buffer (run os g) = buffer g ++ inputs os /\
  flowOut (run os g) = false.
Proof.
  intros Hc Hos.
  assert (H : pushed (run os g) = pushed g /\ flowOut (run os g) = false).
  { revert g Hc. induction os as [|o os IH]; intros g Hc; [done|].
    simpl in Hos. apply andb_true_iff in Hos as [Ho Hos].
    apply negb_true_iff in Ho.
    destruct (step_closed_outlet o g Hc Ho) as [Hc' Hp'].
    rewrite run_cons. destruct (IH Hos (step o g) Hc') as [-> ->].
    by rewrite Hp'. }
  destruct H as [Hp Hf]. repeat split; try done.
  pose proof (run_history_inputs os g) as Hh.
  unfold history in Hh. rewrite Hp, <- app_assoc in Hh.
  by apply app_inv_head in Hh.
Qed.

Lemma closed_outlet_witness :
  pushed (run [OpWrite (VChunk "a"); OpCloseInlet; OpWrite (VChunk "b"); OpFinish]
              (pourIn new)) = [] /\
  buffer (run [OpWrite (VChunk "a"); OpCloseInlet; OpWrite (VChunk "b"); OpFinish]
              (pourIn new)) = [VChunk "a"; VChunk "b"; VNull].
Proof.
  destruct (closed_outlet_forwards_nothing
              [OpWrite (VChunk "a"); OpCloseInlet; OpWrite (VChunk "b"); OpFinish]
              (pourIn new) eq_refl eq_refl) as (H1 & H2 & _).
  split; [exact H1 | exact H2].
Defined.

Lemma _write_inlet c g : flowIn (_write c g) = flowIn g.
Proof.
  unfold _write.
  destruct (_read_flags (set_buffer
    (buffer (if negb (flowIn g) then next g else g) ++ [c])
    (if negb (flowIn g) then next g else g))) as (-> & _).
  destruct (flowIn g) eqn:E; simpl; by rewrite ?E.
Qed.

Lemma step_inlet o g : flowIn (step o g) = inlet_after o (flowIn g).
Proof.
  destruct o; simpl;
    unfold pourIn, pourOut, fullFlow, freeze, openOutlet, openInlet,
      closeInlet, closeOutlet, on_finish; simpl;
    first
      [ reflexivity
      | apply _write_inlet
      | apply _read_flags
      | apply (_read_flags (set_flowOut true g)) ].
Qed.

Lemma step_nexts o g :
  nexts (step o g) = nexts g + closed_writes (flowIn g) [o].
Proof.
  destruct o; simpl;
    unfold pourIn, pourOut, fullFlow, freeze, openOutlet, openInlet,
      closeInlet, closeOutlet, on_finish; simpl; rewrite ?Nat.add_0_r;
    first
      [ reflexivity
      | rewrite _write_nexts; destruct (flowIn g); lia
      | apply _read_flags
      | apply (_read_flags (set_flowOut true g)) ].
Qed.

(** X3: the write callback [next] is invoked once for every [_write] that
    finds the inlet closed, and for no other: a chunk written while the
    inlet is open is never acknowledged, by [_write] or by anything later. *)
Theorem writes_acknowledged_only_while_inlet_closed os g :
  nexts (run os g) = nexts g + closed_writes (flowIn g) os.
Proof.
  revert g. induction os as [|o os IH]; intros g.
  - simpl. lia.
  - rewrite run_cons, IH, step_nexts, step_inlet. simpl. lia.
Qed.

End SluiceRunFacts.

(** * Further properties of the pump *)

Section PumpEndpoints.
Import Pump PumpRuns.
Local Open Scope pump_scope.

Implicit Types (w : World) (r : ref).

Lemma keeps_ret {A} (a : A) : keeps_endpoints (ret a).
Proof. by intros w. Qed.

Lemma keeps_throw {A} e : keeps_endpoints (@throw A e).
Proof. by intros w. Qed.

Lemma keeps_gets {A} (f : PumpObj -> A) : keeps_endpoints (gets f).
Proof. by intros w. Qed.

Lemma keeps_peek {A} o (f : Stream -> A) : keeps_endpoints (peek o f).
Proof. intros w. unfold peek. by repeat case_match. Qed.

Lemma keeps_invoke {A} o (m : Stream -> A * Stream) : keeps_endpoints (invoke o m).
Proof. intros w. unfold invoke. by repeat case_match. Qed.

Lemma keeps_setTimeout t : keeps_endpoints (setTimeout t).
Proof. by intros w. Qed.

Lemma keeps_console_log l : keeps_endpoints (console_log l).
Proof. by intros w. Qed.

Lemma keeps_call_next n : keeps_endpoints (call_next n).
Proof. intros w. unfold call_next. by case_match. Qed.

Lemma keeps_assign upd :
  (forall p, endpoints (upd p) = endpoints p) -> keeps_endpoints (assign upd).
Proof. intros H w. apply H. Qed.

Lemma keeps_bind {A B} (m : M A) (k : A -> M B) :
  keeps_endpoints m -> (forall a, keeps_endpoints (k a)) ->
  keeps_endpoints (bind m k).
Proof.
  intros Hm Hk w. unfold bind. specialize (Hm w).
  destruct (m w) as [[a|e] w1]; simpl in *; [|done].
  by rewrite Hk.
Qed.

Ltac keeps :=
  repeat first
    [ apply keeps_ret | apply keeps_throw | apply keeps_gets
    | apply keeps_peek | apply keeps_invoke | apply keeps_setTimeout
    | apply keeps_console_log | apply keeps_call_next
    | apply keeps_assign; by intros []
    | apply keeps_bind; [|intros ?]
    | match goal with
      | |- keeps_endpoints (match ?x with _ => _ end) => destruct x
      end
    | solve [eauto] ].

Lemma keeps_destroy force : keeps_endpoints (destroy force).
Proof. unfold destroy, wait. keeps. Qed.

Lemma keeps_onPump a o : keeps_endpoints (onPump a o).
Proof. unfold onPump, arg_read, arg_chunk, arg_next. keeps. Qed.

Lemma keeps_pump : keeps_endpoints pump.
Proof.
  pose proof keeps_destroy. pose proof keeps_onPump.
  unfold pump. keeps.
Qed.

Lemma keeps_run_listeners ls ev : keeps_endpoints (run_listeners ls ev).
Proof.
  pose proof keeps_destroy. pose proof keeps_pump.
  induction ls as [|[name l] ls IH]; simpl; unfold run_listener; keeps.
Qed.

Lemma keeps_fire_timer : keeps_endpoints fire_timer.
Proof.
  intros w. unfold fire_timer. destruct (timers w) as [|t rest]; [done|].
  assert (K : keeps_endpoints (run_task t)).
  { pose proof keeps_destroy. pose proof keeps_pump.
    unfold run_task. keeps. }
  by rewrite K.
Qed.

Lemma keeps_deliver e : keeps_endpoints (deliver e).
Proof.
  pose proof keeps_pump. pose proof keeps_run_listeners.
  pose proof keeps_fire_timer.
  destruct e; simpl; unfold emit, call__write, call__read; keeps.
Qed.

Lemma keeps_deliver_all es : keeps_endpoints (deliver_all es).
Proof.
  pose proof keeps_deliver.
  induction es as [|e es IH]; simpl; keeps.
Qed.

(** X4: no handler of the pump reassigns [source], [sourceType],
    [destination] or [destinationType]: they are the same after any event
    (data arriving, an emitted event, a [_write] or [_read] call, a timer)
    and after [pump] and [destroy], whether the handler returns or throws. *)
Theorem handlers_keep_endpoints (es : list event) (force : bool) w :
  endpoints (self (deliver_all es w).2) = endpoints (self w) /\
  endpoints (self (pump w).2) = endpoints (self w) /\
  endpoints (self (destroy force w).2) = endpoints (self w).
Proof.
  split; [apply keeps_deliver_all|].
  split; [apply keeps_pump | apply keeps_destroy].
Qed.

Lemma register_source_sets w r w1 :
  registerReadableSource r w = (Ok tt, w1) \/
  registerWritableSource r w = (Ok tt, w1) ->
  source (self w1) = Some r.
Proof.
  unfold registerReadableSource, registerWritableSource, bind, ret, throw,
    gets, assign, peek, invoke.
  intros [H|H]; simpl in H;
    repeat (case_match; simpl in *; simplify_eq); done.
Qed.

Lemma register_destination_sets w r w1 :
  registerReadableDestination r w = (Ok tt, w1) \/
  registerWritableDestination r w = (Ok tt, w1) ->
  destination (self w1) = Some r.
Proof.
  unfold registerReadableDestination, registerWritableDestination, bind, ret,
    throw, gets, assign, peek, invoke.
  intros [H|H]; simpl in H;
    repeat (case_match; simpl in *; simplify_eq); done.
Qed.

(** X5: a pump has one source for life.  After a source registration has
    succeeded, and whatever events are delivered afterwards, every further
    source registration throws "There is already a source" and leaves the
    world as it is; the same holds for the destination. *)
Theorem one_source_and_one_destination_for_life w r w1 es r' :
  let w2 := (deliver_all es w1).2 in
  (registerReadableSource r w = (Ok tt, w1) \/
   registerWritableSource r w = (Ok tt, w1) ->
   source (self w2) = Some r /\
   registerReadableSource r' w2 = (Throw (Error "There is already a source"), w2) /\
   registerWritableSource r' w2 = (Throw (Error "There is already a source"), w2)) /\
  (registerReadableDestination r w = (Ok tt, w1) \/
   registerWritableDestination r w = (Ok tt, w1) ->
   destination (self w2) = Some r /\
   registerReadableDestination r' w2
     = (Throw (Error "There is already a destination"), w2) /\
   registerWritableDestination r' w2
     = (Throw (Error "There is already a destination"), w2)).
Proof.
  intros w2. pose proof (keeps_deliver_all es w1) as K. fold w2 in K.
  unfold endpoints in K. injection K as Ks _ Kd _.
  split; intros H.
  - apply register_source_sets in H. rewrite H in Ks.
    split; [done|]. apply register_source_twice. by rewrite Ks.
  - apply register_destination_sets in H. rewrite H in Kd.
    split; [done|]. apply register_destination_twice. by rewrite Kd.
Qed.

Lemma one_source_witness :
  registerReadableSource 3
    (deliver_all [Arrive 1 (VChunk "a"); Emit 1 "readable"]
       (registerReadableSource 1 unregistered).2).2
  = (Throw (Error "There is already a source"),
     (deliver_all [Arrive 1 (VChunk "a"); Emit 1 "readable"]
        (registerReadableSource 1 unregistered).2).2).
Proof.
  destruct (one_source_and_one_destination_for_life
              unregistered 1 (registerReadableSource 1 unregistered).2
              [Arrive 1 (VChunk "a"); Emit 1 "readable"] 3) as (H & _).
  assert (R : registerReadableSource 1 unregistered
              = (Ok tt, (registerReadableSource 1 unregistered).2))
    by (vm_compute; reflexivity).
  destruct (H (or_introl R)) as (_ & H1 & _).
  exact H1.
Defined.

End PumpEndpoints.

Section PumpTermination.
Import Pump PumpRuns.
Local Open Scope pump_scope.

Implicit Types (w : World) (s d r : ref).

Ltac run_monad :=
  unfold bind, ret, throw, gets, assign, peek, invoke, setTimeout,
    console_log, call_next, wait; simpl.

(** X6: with a writable source, a non-forced [destroy] also waits for the
    source: as long as the source's [_writableState.ended] is false it only
    logs and schedules itself again, and the destination is not ended; once
    the source has ended it calls [end()] on the writable destination.  A
    forced [destroy] ends the destination at once. *)
Theorem destroy_waits_for_writable_source w s d S D :
  sourceType (self w) = Some writable ->
  source (self w) = Some s ->
  heap w !! s = Some S ->
  destinationType (self w) = Some writable ->
  destination (self w) = Some d ->
  heap w !! d = Some D ->
  (wended S = false -> destroy false w = (Ok tt, deferred w)) /\
  (wended S = true -> destroy false w = (Ok tt, after_call d end_ D w)) /\
  destroy true w = (Ok tt, after_call d end_ D w).
Proof.
  intros Hst Hs HS Hdt Hd HD.
  unfold destroy. run_monad. rewrite Hst, Hs, Hdt, Hd. simpl.
  rewrite HS, HD. simpl.
  repeat split; try done; intros ->; simpl; [done|]. by rewrite HD.
Qed.

Lemma destroy_waits_for_writable_source_witness :
  destroy false push_push_armed = (Ok tt, deferred push_push_armed) /\
  calls <$> heap (destroy true push_push_armed).2 !! 2 = Some [CEnd].
Proof.
  destruct (destroy_waits_for_writable_source push_push_armed 1 2
              (add_listener "finish" on_source_finish (set__write fresh_duplex))
              fresh_writable eq_refl eq_refl ltac:(vm_compute; reflexivity)
              eq_refl eq_refl ltac:(vm_compute; reflexivity))
    as (H1 & _ & H3).
  split; [exact (H1 eq_refl)|]. rewrite H3. vm_compute. reflexivity.
Defined.

(** X7: a ['readable'] event that finds the source empty is not ignored.
    Between a readable source and a writable destination the pump then
    calls [write(null)] on the destination, as if [null] were a chunk: the
    call is the next one the destination receives. *)
Theorem readable_without_data_forwards_null s d sent w :
  s <> d ->
  at_rest s d [] sent w ->
  calls <$> heap (deliver (Emit s "readable") w).2 !! d
    = Some (sent ++ [CWrite VNull]).
Proof.
  intros Hne (Hp & S & D & HS & HD & Hb & Hl & Hc).
  destruct w as [p h t c k]. simpl in *. subst p.
  unfold emit. run_monad. rewrite HS, Hl. simpl.
  unfold pump, onPump, arg_read. run_monad.
  rewrite HS. unfold read at 1. rewrite Hb. simpl.
  rewrite lookup_insert_ne by done. rewrite HD. simpl.
  rewrite lookup_insert_ne, lookup_insert_eq by done. simpl.
  rewrite lookup_insert_ne, lookup_insert_eq by done. simpl.
  by rewrite Hc.
Qed.

Lemma readable_without_data_witness :
  calls <$> heap (deliver (Emit 1 "readable") armed).2 !! 2
    = Some [CWrite VNull].
Proof.
  apply (readable_without_data_forwards_null 1 2 [] armed); [discriminate|].
  split; [reflexivity|].
  exists (add_listener "end" on_source_end
            (add_listener "error" on_source_error
               (add_listener "readable" on_source_readable fresh_readable))),
    fresh_writable.
  repeat split; vm_compute; reflexivity.
Defined.

Lemma timer_while_buffered w d D :
  destinationType (self w) = Some readable ->
  destination (self w) = Some d ->
  heap w !! d = Some D ->
  rbuffer D <> [] ->
  timers w = [task_destroy] ->
  deliver Timer w
    = (Ok tt, mkWorld (self w) (heap w) [task_destroy]
                      (console w ++ ["waiting"]) (called w)).
Proof.
  intros Ht Hd HD Hne Htm. simpl. unfold fire_timer. rewrite Htm. simpl.
  rewrite (destroy_pending_readable _ d D); try done.
Qed.

Lemma consume_step w d D :
  heap w !! d = Some D ->
  deliver (Consume d) w
    = (Ok tt, mkWorld (self w) (<[d := set_rbuffer (tail (rbuffer D)) D]> (heap w))
                      (timers w) (console w) (called w)).
Proof. intros HD. simpl. run_monad. by rewrite HD. Qed.

(** X8: the deferred [destroy] is a retry loop with one timer.  While the
    readable destination holds unread data, every firing of the pending
    timer logs one line and leaves exactly one timer pending, the pump and
    all streams untouched.  Once a consumer has taken all the buffered
    items, the next firing pushes [null] to the destination and no timer
    is left. *)
Theorem deferred_destroy_retries_until_consumed w d D n :
  destinationType (self w) = Some readable ->
  destination (self w) = Some d ->
  sourceType (self w) = Some readable ->
  heap w !! d = Some D ->
  rbuffer D <> [] ->
  timers w = [task_destroy] ->
  deliver_all (replicate n Timer) w
    = (Ok tt, mkWorld (self w) (heap w) [task_destroy]
                      (console w ++ replicate n "waiting") (called w)) /\
  exists w' D',
    deliver_all (replicate (length (rbuffer D)) (Consume d) ++ [Timer]) w
      = (Ok tt, w') /\
    timers w' = [] /\ console w' = console w /\ self w' = self w /\
    heap w' !! d = Some D' /\ rbuffer D' = [] /\
    calls D' = calls D ++ [CPush VNull].
Proof.
  intros Ht Hd Hs HD Hne Htm. split.
  - clear Hs.
    destruct w as [p h t c k]. simpl in *. subst t.
    revert c. induction n as [|n IH]; intros c.
    + simpl. by rewrite app_nil_r.
    + change (deliver_all (replicate (S n) Timer))
        with (bind (deliver Timer) (fun _ => deliver_all (replicate n Timer))).
      unfold bind.
      rewrite (timer_while_buffered (mkWorld p h [task_destroy] c k) d D);
        try done.
      simpl. rewrite IH. simpl. by rewrite <- app_assoc.
  - clear Hne.
    assert (Drain : forall items w0 D0,
      self w0 = self w -> timers w0 = timers w -> console w0 = console w ->
      heap w0 !! d = Some D0 -> rbuffer D0 = items -> calls D0 = calls D ->
      exists w' D',
        deliver_all (replicate (length items) (Consume d) ++ [Timer]) w0
          = (Ok tt, w') /\
        timers w' = [] /\ console w' = console w /\ self w' = self w /\
        heap w' !! d = Some D' /\ rbuffer D' = [] /\
        calls D' = calls D ++ [CPush VNull]).
    { induction items as [|x items IH]; intros w0 D0 Hp0 Ht0 Hc0 HD0 Hb0 Hcalls.
      - simpl. unfold bind, fire_timer. rewrite Ht0, Htm. simpl.
        rewrite (destroy_drained_readable _ d D0); simpl;
          rewrite ?Hp0; try done; [|by rewrite Hs].
        eexists _, _. split; [reflexivity|]. simpl.
        rewrite lookup_insert_eq. repeat split; try done. simpl.
        by rewrite Hcalls.
      - change (deliver_all (replicate (length (x :: items)) (Consume d) ++ [Timer]))
          with (bind (deliver (Consume d))
                  (fun _ => deliver_all (replicate (length items) (Consume d) ++ [Timer]))).
        unfold bind. rewrite (consume_step w0 d D0 HD0).
        apply (IH _ (set_rbuffer (tail (rbuffer D0)) D0)); simpl; try done.
        + by rewrite lookup_insert_eq.
        + by rewrite Hb0. }
    by apply (Drain (rbuffer D) w D).
Qed.

Lemma deferred_destroy_witness :
  deliver_all (replicate 3 Timer) pull_pull_draining
    = (Ok tt, mkWorld (self pull_pull_draining) (heap pull_pull_draining)
                      [task_destroy]
                      (console pull_pull_draining ++ replicate 3 "waiting")
                      (called pull_pull_draining)) /\
  exists w',
    deliver_all [Consume 3; Timer] pull_pull_draining = (Ok tt, w') /\
    timers w' = [].
Proof.
  destruct (deferred_destroy_retries_until_consumed pull_pull_draining 3
              (set_rbuffer [VChunk "a"] (set__read fresh_readable)) 3
              eq_refl eq_refl eq_refl ltac:(vm_compute; reflexivity)
              ltac:(discriminate) eq_refl)
    as (H1 & w' & D' & H2 & H3 & _).
  split; [exact H1|]. exists w'. split; [exact H2 | exact H3].
Defined.

End PumpTermination.

Section PumpPushSource.
Import Pump PumpRuns.
Local Open Scope pump_scope.

Implicit Types (w : World) (s d r : ref).

Ltac run_monad :=
  unfold bind, ret, throw, gets, assign, peek, invoke, setTimeout,
    console_log, call_next, wait; simpl.

Ltac look :=
  repeat (first
    [ rewrite lookup_insert_eq
    | rewrite lookup_insert_ne by done
    | match goal with
      | H : ?h !! ?k = Some _ |- context [?h !! ?k] => rewrite H
      end ]; simpl).

Lemma bind_ok {A B} (m : M A) (k : A -> M B) w a w1 :
  m w = (Ok a, w1) -> bind m k w = k a w1.
Proof. intros H. unfold bind. by rewrite H. Qed.

Lemma push_push_after_registration s d S D h :
  s <> d -> h !! s = Some S -> h !! d = Some D ->
  s_writable S = true -> listeners S = [] ->
  s_writable D = true -> calls D = [] ->
  exists w1,
    (registerWritableSource s ;; registerWritableDestination d)
      (mkWorld new h [] [] []) = (Ok tt, w1) /\
    push_push_inv s d [] w1.
Proof.
  intros Hne HS HD Hw Hl HwD Hc.
  unfold registerWritableSource, registerWritableDestination. run_monad.
  rewrite HS. simpl. rewrite Hw. simpl. look. rewrite HwD. simpl.
  eexists. split; [reflexivity|]. repeat split; simpl.
  eexists _, D. rewrite lookup_insert_eq, !lookup_insert_ne by done.
  repeat split; try done. simpl. by rewrite Hl.
Qed.

Lemma push_push_write s d done c e n w :
  s <> d ->
  push_push_inv s d done w ->
  exists w1,
    deliver (CallWrite s c e n) w = (Ok tt, w1) /\
    push_push_inv s d (done ++ [(c, n)]) w1.
Proof.
  intros Hne (He & Hf & Hsr & Hdr & Hk & Ht & S & D & HS & HD & Hh & Hl & Hc).
  destruct w as [p h t cs k].
  destruct p as [src dst sr fin st bytes dr dt lc ln le].
  unfold endpoints in He. simpl in *. simplify_eq.
  unfold call__write. run_monad. rewrite HS, Hh. simpl.
  unfold pump, onPump, arg_chunk, arg_next. run_monad.
  rewrite HD. simpl.
  eexists. split; [reflexivity|]. repeat split; simpl.
  - by rewrite fmap_app.
  - eexists S, _. rewrite lookup_insert_ne, lookup_insert_eq by done.
    repeat split; try done. simpl. by rewrite Hc, !fmap_app.
Qed.

Lemma push_push_writes s d ws :
  s <> d ->
  forall done w,
    push_push_inv s d done w ->
    exists w1,
      deliver_all (write_calls s ws) w = (Ok tt, w1) /\
      push_push_inv s d (done ++ ((fun x => (x.1.1, x.2)) <$> ws)) w1.
Proof.
  intros Hne. induction ws as [|[[c e] n] ws IH]; intros done w Hw.
  - exists w. split; [done|]. simpl. by rewrite app_nil_r.
  - destruct (push_push_write s d done c e n w Hne Hw) as (w1 & H1 & Hw1).
    destruct (IH _ w1 Hw1) as (w2 & H2 & Hw2).
    exists w2. split.
    + change (bind (deliver (CallWrite s c e n))
                (fun _ => deliver_all (write_calls s ws)) w = (Ok tt, w2)).
      by rewrite (bind_ok _ _ _ _ _ H1).
    + simpl. by rewrite <- app_assoc in Hw2.
Qed.

Lemma push_push_finish s d done w :
  s <> d ->
  push_push_inv s d done w ->
  exists w1 D1,
    (source_ends s ;; deliver (Emit s "finish") ;; deliver Timer) w
      = (Ok tt, w1) /\
    heap w1 !! d = Some D1 /\
    calls D1 = (CWrite <$> done.*1) ++ [CEnd] /\
    called w1 = done.*2 /\ timers w1 = [].
Proof.
  intros Hne (He & Hf & Hsr & Hdr & Hk & Ht & S & D & HS & HD & Hh & Hl & Hc).
  destruct w as [p h t cs k].
  destruct p as [src dst sr fin st bytes dr dt lc ln le].
  unfold endpoints in He. simpl in *. simplify_eq.
  unfold source_ends, emit. run_monad. rewrite HS. simpl.
  rewrite lookup_insert_eq. simpl. rewrite Hl. simpl.
  unfold fire_timer. simpl. unfold pump, destroy. run_monad.
  rewrite lookup_insert_eq. simpl.
  rewrite lookup_insert_ne by done. rewrite HD.
  eexists _, _. split; [reflexivity|]. simpl. rewrite lookup_insert_eq.
  repeat split; try done. simpl. by rewrite Hc.
Qed.

(** X9: a new pump between a writable source and a writable destination
    relays every chunk handed to the source's [_write]: the destination's
    [write] receives the chunks in order, each callback is invoked once, in
    the same order, inside the call that delivered its chunk.  After the
    source has ended and emitted ['finish'], the zero-delay timer ends the
    destination exactly once and no timer is left. *)
Theorem push_to_push_relays_and_acknowledges s d S D h
    (ws : list (value * option string * callback)) :
  s <> d -> h !! s = Some S -> h !! d = Some D ->
  s_writable S = true -> listeners S = [] ->
  s_writable D = true -> calls D = [] ->
  exists w' D',
    (registerWritableSource s ;; registerWritableDestination d ;;
     deliver_all (write_calls s ws) ;;
     source_ends s ;; deliver (Emit s "finish") ;; deliver Timer)
      (mkWorld new h [] [] []) = (Ok tt, w') /\
    heap w' !! d = Some D' /\
    calls D' = (CWrite <$> ws.*1.*1) ++ [CEnd] /\
    called w' = ws.*2 /\
    timers w' = [].
Proof.
  intros Hne HS HD Hw Hl HwD Hc.
  destruct (push_push_after_registration s d S D h Hne HS HD Hw Hl HwD Hc)
    as (w1 & H1 & Hw1).
  destruct (push_push_writes s d ws Hne [] w1 Hw1) as (w2 & H2 & Hw2).
  destruct (push_push_finish s d _ w2 Hne Hw2) as (w3 & D3 & H3 & HD3 & Hc3 & Hk3 & Ht3).
  exists w3, D3. cbn [app] in Hc3, Hk3.
  assert (E1 : ((fun x : value * option string * callback => (x.1.1, x.2)) <$> ws).*1
               = ws.*1.*1).
  { clear. induction ws as [|x ws IH]; [done|]. rewrite !fmap_cons. by f_equal. }
  assert (E2 : ((fun x : value * option string * callback => (x.1.1, x.2)) <$> ws).*2
               = ws.*2).
  { clear. induction ws as [|x ws IH]; [done|]. rewrite !fmap_cons. by f_equal. }
  rewrite E1 in Hc3. rewrite E2 in Hk3.
  split; [|done].
  unfold bind in H1.
  destruct (registerWritableSource s (mkWorld new h [] [] [])) as [[[]|err] wa] eqn:Hr;
    [|done].
  rewrite (bind_ok _ _ _ _ _ Hr), (bind_ok _ _ _ _ _ H1), (bind_ok _ _ _ _ _ H2).
  exact H3.
Qed.

Lemma push_to_push_witness :
  exists w' D',
    (registerWritableSource 1 ;; registerWritableDestination 2 ;;
     deliver_all (write_calls 1 [(VChunk "a", Some "utf8", 7); (VChunk "b", None, 8)]) ;;
     source_ends 1 ;; deliver (Emit 1 "finish") ;; deliver Timer)
      unregistered_push = (Ok tt, w') /\
    heap w' !! 2 = Some D' /\
    calls D' = [CWrite (VChunk "a"); CWrite (VChunk "b"); CEnd] /\
    called w' = [7; 8] /\
    timers w' = [].
Proof.
  exact (push_to_push_relays_and_acknowledges 1 2 fresh_duplex fresh_writable
           (heap unregistered_push)
           [(VChunk "a", Some "utf8", 7); (VChunk "b", None, 8)]
           ltac:(discriminate) ltac:(vm_compute; reflexivity)
           ltac:(vm_compute; reflexivity) eq_refl eq_refl eq_refl eq_refl).
Defined.

End PumpPushSource.

Section PumpPullPull.
Import Pump PumpRuns.
Local Open Scope pump_scope.

Implicit Types (w : World) (s d r : ref).

Ltac run_monad :=
  unfold bind, ret, throw, gets, assign, peek, invoke, setTimeout,
    console_log, call_next, wait; simpl.

Lemma push_log v D :
  calls (push v D).2 = calls D ++ [CPush v] /\
  _read_is_pump (push v D).2 = _read_is_pump D /\
  _write_is_pump (push v D).2 = _write_is_pump D /\
  listeners (push v D).2 = listeners D /\
  wended (push v D).2 = wended D.
Proof. by destruct v. Qed.

Lemma pull_pull_step s d e pending delivered w :
  s <> d ->
  pull_pull_inv s d pending delivered w ->
  pull_pull_event s d e w = true ->
  exists w1 pending' delivered',
    deliver e w = (Ok tt, w1) /\
    pull_pull_inv s d pending' delivered' w1 /\
    delivered' ++ pending' = delivered ++ pending ++ arrived [e].
Proof.
  intros Hne (He & Hf & Hrdy & S & D & HS & HD & Hb & Hl & Hrd & Hc) Hok.
  destruct w as [p h t cs k].
  destruct p as [src dst sr fin st bytes dr dt lc ln le].
  unfold endpoints in He. simpl in *. simplify_eq.
  destruct e as [r v|r|r ev|r c e n|r n|]; simpl in Hok; try done.
  - (* data arrives at the source *)
    destruct v as [| |c]; try done. apply bool_decide_eq_true in Hok. subst r.
    simpl. run_monad. rewrite HS.
    eexists _, (rbuffer S ++ [VChunk c]), delivered.
    split; [reflexivity|]. split; [|by rewrite app_assoc].
    repeat split; simpl.
    + intros _ E. by destruct (rbuffer S).
    + eexists _, D. rewrite lookup_insert_eq, lookup_insert_ne by done.
      repeat split; done.
  - (* a consumer takes an item from the destination *)
    apply bool_decide_eq_true in Hok. subst r.
    simpl. run_monad. rewrite HD.
    eexists _, (rbuffer S), delivered.
    split; [reflexivity|]. split; [|by rewrite app_nil_r].
    repeat split; simpl; [done|].
    eexists S, _. rewrite lookup_insert_eq, lookup_insert_ne by done.
    repeat split; done.
  - (* the source announces data *)
    apply andb_true_iff in Hok as [Hok Hdata].
    apply andb_true_iff in Hok as [Hr Hev].
    apply bool_decide_eq_true in Hr. apply String.eqb_eq in Hev. subst r ev.
    unfold holds_data in Hdata. simpl in Hdata. rewrite HS in Hdata.
    destruct (rbuffer S) as [|v rest] eqn:Hbuf; [done|].
    simpl. unfold emit. run_monad. rewrite HS, Hl. simpl.
    unfold pump, onPump, arg_read. run_monad.
    destruct dr; simpl.
    + rewrite HS. unfold read at 1. rewrite Hbuf. simpl.
      rewrite lookup_insert_ne by done. rewrite HD.
      destruct (push v D) as [[] D1] eqn:HP.
      pose proof (push_log v D) as HL. rewrite HP in HL. simpl in HL.
      destruct HL as (HL1 & HL2 & _).
      simpl. rewrite lookup_insert_ne, lookup_insert_eq by done. simpl.
      eexists _, rest, (delivered ++ [v]).
      split; [reflexivity|]. split; [|by rewrite <- !app_assoc, app_nil_r].
      repeat split; simpl; [done|].
      eexists _, D1. rewrite lookup_insert_eq.
      rewrite lookup_insert_ne, lookup_insert_eq by done.
      repeat split; try done; [by rewrite HL2 | by rewrite HL1, Hc, fmap_app].
    + eexists _, (v :: rest), delivered.
      split; [reflexivity|]. split; [|by rewrite app_nil_r].
      repeat split; simpl; [done|].
      eexists S, D. repeat split; done.
  - (* the destination asks for data *)
    apply bool_decide_eq_true in Hok. subst r.
    simpl. unfold call__read. run_monad. rewrite HD, Hrd. simpl.
    unfold pump, onPump, arg_read. run_monad.
    destruct sr; simpl.
    + destruct (rbuffer S) as [|v rest] eqn:Hbuf; [by destruct Hrdy|].
      rewrite HS. unfold read at 1. rewrite Hbuf. simpl.
      rewrite lookup_insert_ne by done. rewrite HD.
      destruct (push v D) as [[] D1] eqn:HP.
      pose proof (push_log v D) as HL. rewrite HP in HL. simpl in HL.
      destruct HL as (HL1 & HL2 & _).
      simpl. rewrite lookup_insert_ne, lookup_insert_eq by done. simpl.
      eexists _, rest, (delivered ++ [v]).
      split; [reflexivity|]. split; [|by rewrite <- !app_assoc, app_nil_r].
      repeat split; simpl; [done|].
      eexists _, D1. rewrite lookup_insert_eq.
      rewrite lookup_insert_ne, lookup_insert_eq by done.
      repeat split; try done; [by rewrite HL2 | by rewrite HL1, Hc, fmap_app].
    + eexists _, (rbuffer S), delivered.
      split; [reflexivity|]. split; [|by rewrite app_nil_r].
      repeat split; simpl; [done|].
      eexists S, D. repeat split; done.
Qed.

Lemma pull_pull_run s d es :
  s <> d ->
  forall pending delivered w,
    pull_pull_inv s d pending delivered w ->
    well_timed (pull_pull_event s d) es w = true ->
    exists w' pending' delivered',
      deliver_all es w = (Ok tt, w') /\
      pull_pull_inv s d pending' delivered' w' /\
      delivered' ++ pending' = delivered ++ pending ++ arrived es.
Proof.
  intros Hne. induction es as [|e es IH]; intros pending delivered w Hw Hok.
  - exists w, pending, delivered. by rewrite app_nil_r.
  - simpl in Hok. apply andb_true_iff in Hok as [Hok Hrest].
    destruct (pull_pull_step s d e pending delivered w Hne Hw Hok)
      as (w1 & p1 & d1 & H1 & Hw1 & E1).
    rewrite H1 in Hrest. simpl in Hrest.
    destruct (IH p1 d1 w1 Hw1 Hrest) as (w2 & p2 & d2 & H2 & Hw2 & E2).
    exists w2, p2, d2. split; [|split; [done|]].
    + change (bind (deliver e) (fun _ => deliver_all es) w = (Ok tt, w2)).
      unfold bind. by rewrite H1.
    + rewrite E2, app_assoc, E1, <- !app_assoc. f_equal. f_equal.
      by destruct e.
Qed.

Lemma pull_pull_after_registration s d S D h :
  s <> d -> h !! s = Some S -> h !! d = Some D ->
  s_readable S = true -> rbuffer S = [] -> listeners S = [] ->
  s_readable D = true -> calls D = [] ->
  exists w1,
    (registerReadableSource s ;; registerReadableDestination d)
      (mkWorld new h [] [] []) = (Ok tt, w1) /\
    pull_pull_inv s d [] [] w1.
Proof.
  intros Hne HS HD Hr Hb Hl HrD Hc.
  unfold registerReadableSource, registerReadableDestination. run_monad.
  rewrite HS. simpl. rewrite Hr. simpl.
  repeat (first [rewrite lookup_insert_eq | rewrite lookup_insert_ne by done
                | rewrite HS | rewrite HD]; simpl).
  rewrite HrD. simpl.
  repeat (first [rewrite lookup_insert_eq | rewrite lookup_insert_ne by done
                | rewrite HS | rewrite HD]; simpl).
  eexists. split; [reflexivity|]. repeat split; simpl; [done|].
  eexists _, _. rewrite lookup_insert_eq.
  rewrite lookup_insert_ne, lookup_insert_eq by done.
  repeat split; try done. simpl. by rewrite Hl.
Qed.

(** X10: between a readable source and a readable destination the pump
    never reorders, duplicates or loses an item, in whatever order the
    source's ['readable'] announcements and the destination's [_read]
    requests come.  After any run of arrivals, announcements (made while
    the source holds unread data), requests and consumer reads, the items
    pushed to the destination followed by the items still unread in the
    source are exactly the items that arrived, in order of arrival. *)
Theorem pull_to_pull_keeps_order s d S D h es :
  s <> d -> h !! s = Some S -> h !! d = Some D ->
  s_readable S = true -> rbuffer S = [] -> listeners S = [] ->
  s_readable D = true -> calls D = [] ->
  well_timed (pull_pull_event s d) es
    ((registerReadableSource s ;; registerReadableDestination d)
       (mkWorld new h [] [] [])).2 = true ->
  exists w' S' D' delivered,
    (registerReadableSource s ;; registerReadableDestination d ;;
     deliver_all es) (mkWorld new h [] [] []) = (Ok tt, w') /\
    heap w' !! s = Some S' /\ heap w' !! d = Some D' /\
    calls D' = CPush <$> delivered /\
    delivered ++ rbuffer S' = arrived es.
Proof.
  intros Hne HS HD Hr Hb Hl HrD Hc Hok.
  destruct (pull_pull_after_registration s d S D h Hne HS HD Hr Hb Hl HrD Hc)
    as (w1 & H1 & Hw1).
  rewrite H1 in Hok. simpl in Hok.
  destruct (pull_pull_run s d es Hne [] [] w1 Hw1 Hok)
    as (w2 & p2 & d2 & H2 & Hw2 & E2).
  destruct Hw2 as (_ & _ & _ & S2 & D2 & HS2 & HD2 & Hb2 & _ & _ & Hc2).
  exists w2, S2, D2, d2. repeat split; try done; [|by rewrite Hb2].
  unfold bind in *.
  destruct (registerReadableSource s (mkWorld new h [] [] [])) as [[[]|err] wa];
    [|done].
  by rewrite H1.
Qed.

Lemma pull_to_pull_witness :
  exists w' S' D' delivered,
    (registerReadableSource 1 ;; registerReadableDestination 3 ;;
     deliver_all [CallRead 3 16; Arrive 1 (VChunk "a"); Arrive 1 (VChunk "b");
                  Emit 1 "readable"; Emit 1 "readable"; Consume 3;
                  CallRead 3 16; Arrive 1 (VChunk "c")])
      unregistered = (Ok tt, w') /\
    heap w' !! 1 = Some S' /\ heap w' !! 3 = Some D' /\
    calls D' = CPush <$> delivered /\
    delivered ++ rbuffer S' = [VChunk "a"; VChunk "b"; VChunk "c"].
Proof.
  exact (pull_to_pull_keeps_order 1 3 fresh_readable fresh_readable
           (heap unregistered)
           [CallRead 3 16; Arrive 1 (VChunk "a"); Arrive 1 (VChunk "b");
            Emit 1 "readable"; Emit 1 "readable"; Consume 3;
            CallRead 3 16; Arrive 1 (VChunk "c")]
           ltac:(discriminate) ltac:(vm_compute; reflexivity)
           ltac:(vm_compute; reflexivity)
           eq_refl eq_refl eq_refl eq_refl eq_refl
           ltac:(vm_compute; reflexivity)).
Defined.

End PumpPullPull.

Section PumpPushPull.
Import Pump PumpRuns.
Local Open Scope pump_scope.

Implicit Types (w : World) (s d r : ref) (h : gmap ref Stream).

Ltac run_monad :=
  unfold bind, ret, throw, gets, assign, peek, invoke, setTimeout,
    console_log, call_next, wait; simpl.

(** The source may be the destination itself (one duplex stream): an
    update of the destination keeps the source's [_write] hook. *)
Lemma source_after_destination_update h s d S D D1 :
  h !! s = Some S -> h !! d = Some D ->
  _write_is_pump S = true ->
  _write_is_pump D1 = _write_is_pump D ->
  exists S1, <[d := D1]> h !! s = Some S1 /\ _write_is_pump S1 = true.
Proof.
  intros HS HD Hw Hw1. destruct (decide (d = s)) as [->|Hne].
  - exists D1. rewrite lookup_insert_eq. split; [done|]. congruence.
  - exists S. by rewrite lookup_insert_ne.
Qed.

Lemma push_pull_transfer s d done c n h S D k :
  h !! s = Some S -> h !! d = Some D ->
  _write_is_pump S = true -> _read_is_pump D = true ->
  calls D = CPush <$> done.*1 ->
  k = done.*2 ->
  forall p t cs,
    endpoints p = (Some s, Some writable, Some d, Some readable) ->
    sourceIsFinished p = false ->
    sourceIsReady p = false ->
    push_pull_inv s d (done ++ [(c, n)]) []
      (mkWorld p (<[d := (push c D).2]> h) t cs (k ++ [n])).
Proof.
  intros HS HD Hw Hr Hc -> p t cs He Hf Hsr.
  destruct (push_log c D) as (L1 & L2 & L3 & _).
  destruct (source_after_destination_update h s d S D (push c D).2 HS HD Hw L3)
    as (S1 & HS1 & Hw1).
  repeat split; simpl; try done.
  - by rewrite fmap_app.
  - by rewrite Hsr.
  - exists S1, (push c D).2. rewrite lookup_insert_eq.
    repeat split; try done; [congruence|].
    by rewrite L1, Hc, !fmap_app.
Qed.

Lemma push_pull_step s d e done held w :
  push_pull_inv s d done held w ->
  push_pull_event s d e w = true ->
  exists w1 done' held',
    deliver e w = (Ok tt, w1) /\
    push_pull_inv s d done' held' w1 /\
    done' ++ held' = done ++ held ++ written [e].
Proof.
  intros (He & Hf & Hk & Hheld & S & D & HS & HD & Hw & Hr & Hc) Hok.
  destruct w as [p h t cs k].
  destruct p as [src dst sr fin st bytes dr dt lc ln le].
  unfold endpoints in He. simpl in *. simplify_eq.
  destruct e as [r v|r|r ev|r c e n|r n|]; simpl in Hok; try done.
  - (* a consumer takes an item from the destination *)
    apply bool_decide_eq_true in Hok. subst r.
    simpl. run_monad. rewrite HD.
    destruct (source_after_destination_update h s d S D
                (set_rbuffer (tail (rbuffer D)) D) HS HD Hw eq_refl)
      as (S1 & HS1 & Hw1).
    eexists _, done, held.
    split; [reflexivity|]. split; [|by rewrite app_nil_r].
    repeat split; simpl; try done.
    eexists S1, _. rewrite lookup_insert_eq. repeat split; done.
  - (* [_write] is handed the next chunk *)
    apply andb_true_iff in Hok as [Hr' Hsr].
    apply bool_decide_eq_true in Hr'. apply negb_true_iff in Hsr.
    simpl in Hsr. subst r sr held.
    simpl. unfold call__write. run_monad. rewrite HS, Hw. simpl.
    unfold pump, onPump, arg_chunk, arg_next. run_monad.
    destruct dr; simpl.
    + rewrite HD. destruct (push c D) as [[] D1] eqn:HP. simpl.
      eexists _, (done ++ [(c, n)]), [].
      split; [reflexivity|]. split; [|by rewrite app_nil_r].
      replace D1 with (push c D).2 by (by rewrite HP).
      by apply (push_pull_transfer s d done c n h S D).
    + eexists _, done, [(c, n)].
      split; [reflexivity|]. split; [|done].
      repeat split; simpl; try done.
      * by exists c, n.
      * exists S, D. repeat split; done.
  - (* the destination asks for data *)
    apply bool_decide_eq_true in Hok. subst r.
    simpl. unfold call__read. run_monad. rewrite HD, Hr. simpl.
    unfold pump, onPump, arg_chunk, arg_next. run_monad.
    destruct sr; simpl.
    + destruct Hheld as (c & k0 & -> & -> & ->). simpl.
      rewrite HD. destruct (push c D) as [[] D1] eqn:HP. simpl.
      eexists _, (done ++ [(c, k0)]), [].
      split; [reflexivity|]. split; [|by rewrite !app_nil_r].
      replace D1 with (push c D).2 by (by rewrite HP).
      by apply (push_pull_transfer s d done c k0 h S D).
    + subst held.
      eexists _, done, [].
      split; [reflexivity|]. split; [|done].
      repeat split; simpl; try done.
      exists S, D. repeat split; done.
Qed.

Lemma push_pull_run s d es :
  forall done held w,
    push_pull_inv s d done held w ->
    well_timed (push_pull_event s d) es w = true ->
    exists w' done' held',
      deliver_all es w = (Ok tt, w') /\
      push_pull_inv s d done' held' w' /\
      done' ++ held' = done ++ held ++ written es.
Proof.
  induction es as [|e es IH]; intros done held w Hw Hok.
  - exists w, done, held. by rewrite app_nil_r.
  - simpl in Hok. apply andb_true_iff in Hok as [Hok Hrest].
    destruct (push_pull_step s d e done held w Hw Hok)
      as (w1 & p1 & d1 & H1 & Hw1 & E1).
    rewrite H1 in Hrest. simpl in Hrest.
    destruct (IH p1 d1 w1 Hw1 Hrest) as (w2 & p2 & d2 & H2 & Hw2 & E2).
    exists w2, p2, d2. split; [|split; [done|]].
    + change (bind (deliver e) (fun _ => deliver_all es) w = (Ok tt, w2)).
      unfold bind. by rewrite H1.
    + rewrite E2, app_assoc, E1, <- !app_assoc. f_equal. f_equal.
      by destruct e.
Qed.

Lemma push_pull_after_registration s d S D h :
  h !! s = Some S -> h !! d = Some D ->
  s_writable S = true -> s_readable D = true -> calls D = [] ->
  exists w1,
    (registerWritableSource s ;; registerReadableDestination d)
      (mkWorld new h [] [] []) = (Ok tt, w1) /\
    push_pull_inv s d [] [] w1.
Proof.
  intros HS HD Hw Hr Hc.
  unfold registerWritableSource, registerReadableDestination. run_monad.
  rewrite HS. simpl. rewrite Hw. simpl.
  repeat (first [rewrite lookup_insert_eq | rewrite HS]; simpl).
  destruct (decide (s = d)) as [->|Hne].
  - assert (S = D) as -> by congruence.
    repeat (rewrite lookup_insert_eq; simpl). rewrite Hr. simpl.
    repeat (rewrite lookup_insert_eq; simpl).
    eexists. split; [reflexivity|]. repeat split; simpl.
    eexists _, _. rewrite lookup_insert_eq. repeat split; done.
  - repeat (first [rewrite lookup_insert_ne by done | rewrite HD]; simpl).
    rewrite Hr. simpl.
    repeat (first [rewrite lookup_insert_ne by done | rewrite HD]; simpl).
    eexists. split; [reflexivity|]. repeat split; simpl.
    eexists _, _. rewrite lookup_insert_eq.
    rewrite lookup_insert_ne, lookup_insert_eq by done.
    repeat split; done.
Qed.

(** X11: between a writable source and a readable destination (which may
    be one and the same duplex stream) a chunk is acknowledged exactly when
    it is pushed.  After any run of [_write] calls (each made once the
    previous chunk was taken), [_read] requests and consumer reads, the
    chunks pushed to the destination and the callbacks invoked are, in
    order, those of the chunks written, except for at most one last chunk,
    which is held unacknowledged until the destination asks for data. *)
Theorem push_to_pull_acknowledges_what_it_pushed s d S D h es :
  h !! s = Some S -> h !! d = Some D ->
  s_writable S = true -> s_readable D = true -> calls D = [] ->
  well_timed (push_pull_event s d) es
    ((registerWritableSource s ;; registerReadableDestination d)
       (mkWorld new h [] [] [])).2 = true ->
  exists w' D' done held,
    (registerWritableSource s ;; registerReadableDestination d ;;
     deliver_all es) (mkWorld new h [] [] []) = (Ok tt, w') /\
    heap w' !! d = Some D' /\
    written es = done ++ held /\
    length held <= 1 /\
    calls D' = CPush <$> done.*1 /\
    called w' = done.*2 /\
    (held = [] <-> sourceIsReady (self w') = false).
Proof.
  intros HS HD Hw Hr Hc Hok.
  destruct (push_pull_after_registration s d S D h HS HD Hw Hr Hc)
    as (w1 & H1 & Hw1).
  rewrite H1 in Hok. simpl in Hok.
  destruct (push_pull_run s d es [] [] w1 Hw1 Hok)
    as (w2 & done & held & H2 & Hw2 & E2).
  destruct Hw2 as (_ & _ & Hk & Hheld & S2 & D2 & _ & HD2 & _ & _ & Hc2).
  exists w2, D2, done, held. split; [|repeat split; try done].
  - unfold bind in *.
    destruct (registerWritableSource s (mkWorld new h [] [] [])) as [[[]|err] wa];
      [|done].
    by rewrite H1.
  - destruct (sourceIsReady (self w2)).
    + destruct Hheld as (c & n & -> & _). simpl. lia.
    + subst held. simpl. lia.
  - intros ->. destruct (sourceIsReady (self w2)); [|done].
    by destruct Hheld as (c & n & ? & _).
  - intros E. by rewrite E in Hheld.
Qed.

Lemma push_to_pull_witness :
  exists w' D' done held,
    (registerWritableSource 1 ;; registerReadableDestination 1 ;;
     deliver_all [CallWrite 1 (VChunk "a") None 7; CallRead 1 16;
                  CallRead 1 16; CallWrite 1 (VChunk "b") None 8;
                  Consume 1; CallWrite 1 (VChunk "c") None 9])
      unregistered_push = (Ok tt, w') /\
    heap w' !! 1 = Some D' /\
    [(VChunk "a", 7); (VChunk "b", 8); (VChunk "c", 9)] = done ++ held /\
    length held <= 1 /\
    calls D' = CPush <$> done.*1 /\
    called w' = done.*2 /\
    (held = [] <-> sourceIsReady (self w') = false).
Proof.
  exact (push_to_pull_acknowledges_what_it_pushed 1 1 fresh_duplex fresh_duplex
           (heap unregistered_push)
           [CallWrite 1 (VChunk "a") None 7; CallRead 1 16;
            CallRead 1 16; CallWrite 1 (VChunk "b") None 8;
            Consume 1; CallWrite 1 (VChunk "c") None 9]
           ltac:(vm_compute; reflexivity) ltac:(vm_compute; reflexivity)
           eq_refl eq_refl eq_refl ltac:(vm_compute; reflexivity)).
Defined.

End PumpPushPull.

(** * Properties of the event stream *)

Section EventStreamFacts.
Import EventStream.

Implicit Types (h x : Handle) (l done todo : list Handle) (st : Stream)
  (chunk : Event).

Lemma indexOf_fresh done h rest :
  hid h ∉ (hid <$> done) ->
  indexOf (done ++ h :: rest) h = Some (length done).
Proof.
  induction done as [|x done IH]; intros Hn; simpl.
  - by rewrite Nat.eqb_refl.
  - rewrite fmap_cons in Hn. apply not_elem_of_cons in Hn as [Hx Hn].
    destruct (Nat.eqb_spec (hid x) (hid h)) as [E|_]; [by rewrite E in Hx|].
    by rewrite IH.
Qed.

Lemma indexOf_None l h : indexOf l h = None <-> hid h ∉ (hid <$> l).
Proof.
  induction l as [|x l IH].
  - split; [intros _; apply not_elem_of_nil | done].
  - rewrite fmap_cons, not_elem_of_cons. simpl.
    destruct (Nat.eqb_spec (hid x) (hid h)) as [E|E].
    + split; [done | intros [? _]; congruence].
    + destruct (indexOf l h) eqn:Hi; simpl.
      * split; [done|]. intros [_ Hn]. by apply IH in Hn.
      * split; [|done]. intros _. split; [congruence | by apply IH].
Qed.

Lemma loop_past_end fuel i chunk st :
  length (eventStreamListeners st) <= i ->
  listeners_loop fuel i chunk st = st.
Proof.
  intros Hi. destruct fuel; simpl; [done|].
  by rewrite lookup_ge_None_2.
Qed.

Lemma nodup_ids_middle done h todo :
  NoDup (hid <$> (done ++ h :: todo)) ->
  (hid h ∉ (hid <$> done)) /\ NoDup (hid <$> (done ++ todo)).
Proof.
  rewrite !fmap_app, fmap_cons. intros Hn.
  apply NoDup_app in Hn as (Hd & Hdis & Ht).
  apply NoDup_cons in Ht as (Hh & Ht). split.
  - intros Hin. apply (Hdis _ Hin). apply elem_of_cons. by left.
  - apply NoDup_app. repeat split; try done.
    intros y Hy Hy'. apply (Hdis _ Hy). apply elem_of_cons. by right.
Qed.

(** The loop from index [length done] on, with enough fuel for the
    handles not yet visited. *)
Lemma loop_visit chunk fuel :
  forall done todo pu nx cs cl,
    NoDup (hid <$> (done ++ todo)) ->
    length todo <= fuel ->
    listeners_loop fuel (length done) chunk (mkStream (done ++ todo) pu nx cs cl)
    = mkStream (done ++ (visit chunk todo).1) pu nx
               (cs ++ (visit chunk todo).2) cl.
Proof.
  induction fuel as [|fuel IH]; intros done todo pu nx cs cl Hnd Hlen.
  - destruct todo; [|simpl in Hlen; lia]. simpl. by rewrite !app_nil_r.
  - destruct todo as [|h rest].
    + rewrite loop_past_end; simpl; [by rewrite !app_nil_r | by rewrite app_nil_r].
    + simpl listeners_loop. rewrite list_lookup_middle by done.
      simpl in Hlen.
      destruct (nodup_ids_middle done h rest Hnd) as [Hfresh Hnd'].
      unfold call_handle. simpl visit.
      destruct (test h (name chunk)) eqn:Ht.
      * destruct (once h) eqn:Ho.
        -- unfold removeReceiver. simpl.
           rewrite indexOf_fresh by done. simpl.
           rewrite delete_middle. unfold call_fn, set_listeners. simpl.
           destruct rest as [|x rest'].
           ++ rewrite loop_past_end; simpl; [done|].
              rewrite app_nil_r. lia.
           ++ replace (done ++ x :: rest') with ((done ++ [x]) ++ rest')
                by (by rewrite <- app_assoc).
              replace (S (length done)) with (length (done ++ [x]))
                by (rewrite length_app; simpl; lia).
              rewrite IH; [| by rewrite <- app_assoc | simpl in Hlen; lia].
              destruct (visit chunk rest') as [keep cs']. simpl.
              by rewrite <- !app_assoc.
        -- unfold call_fn. simpl.
           replace (done ++ h :: rest) with ((done ++ [h]) ++ rest)
             by (by rewrite <- app_assoc).
           replace (S (length done)) with (length (done ++ [h]))
             by (rewrite length_app; simpl; lia).
           rewrite IH; [| by rewrite <- app_assoc | lia].
           destruct (visit chunk rest) as [keep cs']. simpl.
           by rewrite <- !app_assoc.
      * replace (done ++ h :: rest) with ((done ++ [h]) ++ rest)
          by (by rewrite <- app_assoc).
        replace (S (length done)) with (length (done ++ [h]))
          by (rewrite length_app; simpl; lia).
        rewrite IH; [| by rewrite <- app_assoc | lia].
        destruct (visit chunk rest) as [keep cs']. simpl.
        by rewrite <- !app_assoc.
Qed.

Lemma transform_spec chunk st :
  NoDup (ids st) ->
  _transform chunk st
  = mkStream (visit chunk (eventStreamListeners st)).1
             (pushed st ++ [chunk]) (S (nexts st))
             (calls st ++ (visit chunk (eventStreamListeners st)).2)
             (closures st).
Proof.
  intros Hnd. destruct st as [l pu nx cs cl]. unfold ids in Hnd. simpl in *.
  unfold _transform, push. simpl.
  pose proof (loop_visit chunk (length l) [] l (pu ++ [chunk]) nx cs cl Hnd) as L.
  simpl in L. by rewrite L.
Qed.

(** X12: what [_transform] does to a stream whose handles are distinct
    function objects.  The chunk is pushed once, [next] is called once,
    and the listener loop calls the callbacks and leaves the handles that
    [visit] computes: a handle whose test rejects the name is passed over;
    a [receive] handle that accepts is called and stays; a [receiveOnce]
    handle that accepts is called and removed, and the handle right behind
    it is not visited for this chunk.  The loop ends because the index
    reaches the end of the array: more fuel changes nothing. *)
Theorem _transform_visits_listeners chunk st :
  NoDup (ids st) ->
  _transform chunk st
  = mkStream (visit chunk (eventStreamListeners st)).1
             (pushed st ++ [chunk]) (S (nexts st))
             (calls st ++ (visit chunk (eventStreamListeners st)).2)
             (closures st) /\
  forall extra,
    listeners_loop (length (eventStreamListeners st) + extra) 0 chunk
                   (push chunk st)
    = listeners_loop (length (eventStreamListeners st)) 0 chunk (push chunk st).
Proof.
  intros Hnd. split; [by apply transform_spec|].
  destruct st as [l pu nx cs cl]. unfold ids in Hnd. simpl in *.
  unfold push. simpl.
  pose proof (fun fuel => loop_visit chunk fuel [] l (pu ++ [chunk]) nx cs cl Hnd)
    as L. simpl in L.
  intros extra. rewrite !L; [done | lia | lia].
Qed.

Lemma _transform_visits_witness :
  calls (_transform (mkEvent "ping" (VChunk "x") 0)
           (receive (NString "ping") 3
              (receive (NString "ping") 2
                 (receiveOnce (NString "ping") 1 new).2).2).2)
  = [(1, VChunk "x"); (3, VChunk "x")].
Proof.
  destruct (_transform_visits_listeners (mkEvent "ping" (VChunk "x") 0)
              (receive (NString "ping") 3
                 (receive (NString "ping") 2
                    (receiveOnce (NString "ping") 1 new).2).2).2) as [-> _].
  - unfold ids. simpl. compute_done.
  - reflexivity.
Defined.

Lemma visit_plain chunk l :
  Forall plain l -> visit chunk l = (l, matching_calls chunk l).
Proof.
  unfold matching_calls.
  induction 1 as [|h l Hp _ IH]; [done|].
  simpl. rewrite filter_cons, IH, Hp.
  destruct (test h (name chunk)) eqn:Ht.
  - by rewrite decide_True.
  - by rewrite decide_False.
Qed.

Lemma visit_app_plain chunk pre l :
  Forall plain pre ->
  visit chunk (pre ++ l)
  = (pre ++ (visit chunk l).1, matching_calls chunk pre ++ (visit chunk l).2).
Proof.
  unfold matching_calls.
  induction 1 as [|h pre Hp _ IH]; [simpl; by destruct (visit chunk l)|].
  simpl. rewrite filter_cons, IH, Hp.
  destruct (test h (name chunk)) eqn:Ht.
  - by rewrite decide_True.
  - by rewrite decide_False.
Qed.

(** X13: with none but [receive] handles registered, [_transform] calls
    the callback of every handle whose test accepts the chunk's name, once
    each and in order of registration, with the chunk's data; the handles
    stay registered, the chunk is pushed once and acknowledged once. *)
Theorem plain_receivers_all_called chunk st :
  NoDup (ids st) ->
  Forall plain (eventStreamListeners st) ->
  _transform chunk st
  = mkStream (eventStreamListeners st) (pushed st ++ [chunk]) (S (nexts st))
             (calls st ++ matching_calls chunk (eventStreamListeners st))
             (closures st).
Proof.
  intros Hnd Hp.
  rewrite (transform_spec chunk st Hnd).
  by rewrite (visit_plain chunk _ Hp).
Qed.

Lemma plain_receivers_witness :
  calls (_transform (mkEvent "ping" (VChunk "x") 0)
           (receive (NString "pong") 3
              (receive (NTest (fun _ => true)) 2
                 (receive (NString "ping") 1 new).2).2).2)
  = [(1, VChunk "x"); (2, VChunk "x")].
Proof.
  rewrite (plain_receivers_all_called (mkEvent "ping" (VChunk "x") 0)
             (receive (NString "pong") 3
                (receive (NTest (fun _ => true)) 2
                   (receive (NString "ping") 1 new).2).2).2).
  - reflexivity.
  - unfold ids. simpl. compute_done.
  - repeat constructor.
Defined.

(** X14: a [receiveOnce] handle that fires hides the chunk from the handle
    registered right after it.  With [receive] handles before and after,
    the once-handle is called and removed, every other accepting handle is
    called, except the one that followed the once-handle: it moved into
    the slot just visited, and is kept but not called, whatever its test
    says. *)
Theorem receiveOnce_hides_chunk_from_next_listener chunk st pre h skipped post :
  eventStreamListeners st = pre ++ h :: skipped :: post ->
  NoDup (ids st) ->
  Forall plain pre -> Forall plain post ->
  once h = true ->
  test h (name chunk) = true ->
  _transform chunk st
  = mkStream (pre ++ skipped :: post) (pushed st ++ [chunk]) (S (nexts st))
             (calls st ++ matching_calls chunk pre
                ++ (fn h, data chunk) :: matching_calls chunk post)
             (closures st).
Proof.
  intros Hl Hnd Hpre Hpost Ho Ht.
  rewrite (transform_spec chunk st Hnd).
  rewrite Hl, (visit_app_plain chunk pre _ Hpre). simpl.
  by rewrite Ht, Ho, (visit_plain chunk post Hpost).
Qed.

Lemma receiveOnce_hides_witness :
  calls (_transform (mkEvent "ping" (VChunk "x") 0)
           (receive (NString "ping") 2
              (receiveOnce (NString "ping") 1 new).2).2)
  = [(1, VChunk "x")] /\
  fn <$> eventStreamListeners
           (_transform (mkEvent "ping" (VChunk "x") 0)
              (receive (NString "ping") 2
                 (receiveOnce (NString "ping") 1 new).2).2)
  = [2].
Proof.
  rewrite (receiveOnce_hides_chunk_from_next_listener
             (mkEvent "ping" (VChunk "x") 0)
             (receive (NString "ping") 2
                (receiveOnce (NString "ping") 1 new).2).2
             [] (mkHandle 0 (to_test (NString "ping")) 1 true)
             (mkHandle 1 (to_test (NString "ping")) 2 false) []).
  - split; reflexivity.
  - reflexivity.
  - unfold ids. simpl. compute_done.
  - constructor.
  - constructor.
  - reflexivity.
  - reflexivity.
Defined.

Lemma filter_other_ids_id l h :
  hid h ∉ (hid <$> l) -> filter (fun x => hid x <> hid h) l = l.
Proof.
  induction l as [|x l IH]; intros Hn; [done|].
  rewrite fmap_cons in Hn. apply not_elem_of_cons in Hn as [Hx Hn].
  rewrite filter_cons, decide_True by done. by rewrite IH.
Qed.

Lemma splice_is_filter l h i :
  NoDup (hid <$> l) ->
  indexOf l h = Some i ->
  delete i l = filter (fun x => hid x <> hid h) l.
Proof.
  revert i. induction l as [|x l IH]; intros i Hnd Hi; [done|].
  rewrite fmap_cons in Hnd. apply NoDup_cons in Hnd as [Hx Hnd].
  simpl in Hi. rewrite filter_cons.
  destruct (Nat.eqb_spec (hid x) (hid h)) as [E|E].
  - injection Hi as <-. rewrite decide_False by (intros ?; done).
    simpl. rewrite filter_other_ids_id; [done | by rewrite <- E].
  - rewrite decide_True by done.
    destruct (indexOf l h) as [j|] eqn:Hj; [|done].
    injection Hi as <-. simpl. by rewrite (IH j).
Qed.

(** X15: [removeReceiver] on a stream whose handles are distinct function
    objects returns [true] exactly when the handle is registered, and
    leaves registered exactly the other handles, in their order; on a
    handle that is not registered it returns [false] and changes nothing.
    So a second removal of the same handle returns [false]. *)
Theorem removeReceiver_removes_exactly_the_handle h st :
  NoDup (ids st) ->
  removeReceiver h st
  = (bool_decide (hid h ∈ ids st),
     set_listeners (filter (fun x => hid x <> hid h) (eventStreamListeners st)) st) /\
  (removeReceiver h (removeReceiver h st).2).1 = false.
Proof.
  intros Hnd. unfold ids in *.
  assert (R : forall st0, NoDup (hid <$> eventStreamListeners st0) ->
    removeReceiver h st0
    = (bool_decide (hid h ∈ hid <$> eventStreamListeners st0),
       set_listeners
         (filter (fun x => hid x <> hid h) (eventStreamListeners st0)) st0)).
  { intros st0 Hnd0. unfold removeReceiver.
    destruct (indexOf (eventStreamListeners st0) h) as [i|] eqn:Hi.
    - assert (Hin : hid h ∈ hid <$> eventStreamListeners st0).
      { destruct (decide (hid h ∈ hid <$> eventStreamListeners st0)) as [|Hn];
          [done|]. apply indexOf_None in Hn. congruence. }
      rewrite bool_decide_eq_true_2 by done. simpl.
      by rewrite (splice_is_filter _ h i Hnd0 Hi).
    - apply indexOf_None in Hi.
      rewrite bool_decide_eq_false_2 by done.
      rewrite filter_other_ids_id by done. by destruct st0. }
  split; [by apply R|].
  rewrite (R st Hnd). simpl. rewrite R; simpl.
  - apply bool_decide_eq_false_2. intros Hin.
    apply list_elem_of_fmap in Hin as (x & Hx & Hin).
    apply list_elem_of_filter in Hin as [Hne _]. congruence.
  - apply (sublist_NoDup _ (hid <$> eventStreamListeners st)); [done|].
    apply fmap_sublist, sublist_filter.
Qed.

Lemma removeReceiver_witness :
  (removeReceiver (mkHandle 0 (to_test (NString "a")) 1 false)
     (receive (NString "b") 2 (receive (NString "a") 1 new).2).2).1 = true /\
  fn <$> eventStreamListeners
           (removeReceiver (mkHandle 0 (to_test (NString "a")) 1 false)
              (receive (NString "b") 2 (receive (NString "a") 1 new).2).2).2
  = [2].
Proof.
  destruct (removeReceiver_removes_exactly_the_handle
              (mkHandle 0 (to_test (NString "a")) 1 false)
              (receive (NString "b") 2 (receive (NString "a") 1 new).2).2)
    as [-> _].
  - unfold ids. simpl. compute_done.
  - split; reflexivity.
Defined.

(** X16: [receive] followed by [removeReceiver] of the handle it returned
    is a round trip: the removal returns [true] and the listeners are those
    registered before.  The same holds for [receiveOnce]. *)
Theorem receive_then_remove_restores_listeners (a : name_arg) (f : nat) st :
  Forall (fun i => i < closures st) (ids st) ->
  removeReceiver (receive a f st).1 (receive a f st).2
  = (true, mkStream (eventStreamListeners st) (pushed st) (nexts st)
                    (calls st) (S (closures st))) /\
  removeReceiver (receiveOnce a f st).1 (receiveOnce a f st).2
  = (true, mkStream (eventStreamListeners st) (pushed st) (nexts st)
                    (calls st) (S (closures st))).
Proof.
  intros Hlt. unfold ids in Hlt.
  assert (Hfresh : forall t o,
    hid (mkHandle (closures st) t f o) ∉ (hid <$> eventStreamListeners st)).
  { intros t o Hin. simpl in Hin. rewrite Forall_forall in Hlt.
    specialize (Hlt _ Hin). lia. }
  unfold removeReceiver, receive, receiveOnce. simpl.
  rewrite !indexOf_fresh by apply Hfresh. simpl.
  rewrite !delete_middle. unfold set_listeners. simpl.
  by rewrite app_nil_r.
Qed.

Lemma receive_then_remove_witness :
  eventStreamListeners
    (removeReceiver (receive (NString "b") 2 (receive (NString "a") 1 new).2).1
       (receive (NString "b") 2 (receive (NString "a") 1 new).2).2).2
  = eventStreamListeners (receive (NString "a") 1 new).2.
Proof.
  destruct (receive_then_remove_restores_listeners (NString "b") 2
              (receive (NString "a") 1 new).2) as [-> _].
  - unfold ids. simpl. repeat constructor.
  - reflexivity.
Defined.

Lemma visit_sublist chunk l : (visit chunk l).1 `sublist_of` l.
Proof.
  induction l as [l IH] using (induction_ltof1 _ (@length Handle)).
  unfold ltof in *. destruct l as [|h l]; [done|]. simpl.
  destruct (test h (name chunk)).
  - destruct (once h).
    + destruct l as [|x l]; [apply sublist_nil_l|].
      specialize (IH l ltac:(simpl; lia)).
      destruct (visit chunk l) as [keep cs]. simpl in *.
      apply sublist_cons. by apply sublist_skip.
    + specialize (IH l ltac:(simpl; lia)).
      destruct (visit chunk l) as [keep cs]. simpl in *.
      by apply sublist_skip.
  - specialize (IH l ltac:(simpl; lia)).
    destruct (visit chunk l) as [keep cs]. simpl in *.
    by apply sublist_skip.
Qed.

Lemma well_formed_sublist st l :
  well_formed st ->
  l `sublist_of` eventStreamListeners st ->
  well_formed (set_listeners l st).
Proof.
  intros [Hnd Hlt] Hsub. unfold well_formed, ids in *. simpl.
  assert (Hs : (hid <$> l) `sublist_of` (hid <$> eventStreamListeners st))
    by by apply fmap_sublist.
  split.
  - by apply (sublist_NoDup _ _ Hnd).
  - rewrite Forall_forall in *. intros i Hi. apply Hlt.
    by apply (elem_of_sublist _ _ _ Hi).
Qed.

Lemma well_formed_transform chunk st :
  well_formed st -> well_formed (_transform chunk st).
Proof.
  intros Hw. rewrite (transform_spec chunk st (proj1 Hw)).
  apply (well_formed_sublist st _ Hw (visit_sublist chunk _)).
Qed.

Lemma well_formed_fresh st t f o :
  well_formed st ->
  well_formed (mkStream (eventStreamListeners st ++ [mkHandle (closures st) t f o])
                        (pushed st) (nexts st) (calls st) (S (closures st))).
Proof.
  intros [Hnd Hlt]. unfold well_formed, ids in *. simpl.
  rewrite fmap_app. simpl. split.
  - apply NoDup_app. repeat split; [done| |apply NoDup_singleton].
    intros i Hi Hi'. apply list_elem_of_singleton in Hi'. subst i.
    rewrite Forall_forall in Hlt. specialize (Hlt _ Hi). lia.
  - apply Forall_app. split.
    + eapply Forall_impl; [exact Hlt|]. simpl. intros. lia.
    + repeat constructor.
Qed.

(** X17: the array [eventStreamListeners] never holds the same handle
    twice.  Starting from a new event stream, after any sequence of
    [_transform] calls (of the class or of a subclass), [send], [receive],
    [receiveOnce] and [removeReceiver] calls, the registered handles are
    distinct function objects. *)
Theorem listeners_stay_distinct (os : list op) :
  NoDup (ids (run os new)) /\
  Forall (fun i => i < closures (run os new)) (ids (run os new)).
Proof.
  change (well_formed (run os new)).
  assert (H0 : well_formed new) by (split; constructor).
  revert H0. generalize new. induction os as [|o os IH]; intros st Hw; [done|].
  apply IH. destruct o; simpl;
    unfold Filter__transform, Prefix__transform, Unprefix__transform,
      Postfix__transform, Unpostfix__transform;
    repeat case_match; try (by apply well_formed_transform);
    try (by apply well_formed_fresh); try done.
  destruct (removeReceiver h st) as [b st'] eqn:Hr. simpl.
  unfold removeReceiver in Hr.
  destruct (indexOf (eventStreamListeners st) h) as [i|]; simplify_eq; [|done].
  apply well_formed_sublist; [done|]. apply sublist_delete.
Qed.

End EventStreamFacts.

(** * Renaming events: prefixes and postfixes *)

Section EventNames.
Import EventStream.

Implicit Types (p q s a b : string) (chunk : Event) (st : Stream).

Lemma str_length_app a b :
  String.length (a +:+ b) = String.length a + String.length b.
Proof. induction a as [|c a IH]; simpl; [done|]. by rewrite IH. Qed.

Lemma substring_0_app a b : String.substring 0 (String.length a) (a +:+ b) = a.
Proof.
  induction a as [|c a IH]; simpl.
  - by destruct b.
  - by rewrite IH.
Qed.

Lemma substring_0_all s : String.substring 0 (String.length s) s = s.
Proof. induction s as [|c s IH]; simpl; [done|]. by rewrite IH. Qed.

Lemma substring_skip a b m :
  String.substring (String.length a) m (a +:+ b) = String.substring 0 m b.
Proof. induction a as [|c a IH]; simpl; done. Qed.

Lemma substring_split s i m :
  i + m = String.length s ->
  s = String.substring 0 i s +:+ String.substring i m s.
Proof.
  revert i. induction s as [|c s IH]; intros i Hi; simpl in Hi.
  - assert (i = 0) as -> by lia. assert (m = 0) as -> by lia. done.
  - destruct i as [|i]; simpl.
    + simpl in Hi. subst m. simpl. by rewrite substring_0_all.
    + change (String c s = String c (String.substring 0 i s +:+ String.substring i m s)).
      f_equal. apply IH. lia.
Qed.

Lemma substring_0_length s i :
  i <= String.length s -> String.length (String.substring 0 i s) = i.
Proof.
  revert i. induction s as [|c s IH]; intros i Hi; simpl in Hi.
  - assert (i = 0) as -> by lia. done.
  - destruct i as [|i]; simpl; [done|]. rewrite IH; lia.
Qed.

Lemma prefix_app p s : String.prefix p (p +:+ s) = true.
Proof. apply String.prefix_correct, substring_0_app. Qed.

Lemma prefix_split p s :
  String.prefix p s = true -> s = p +:+ substr s (String.length p).
Proof.
  intros H. apply String.prefix_correct in H. unfold substr.
  assert (Hlen : String.length p <= String.length s).
  { destruct (decide (String.length p <= String.length s)) as [|Hn]; [done|].
    exfalso. assert (L : String.length (String.substring 0 (String.length p) s)
                         <= String.length s).
    { clear. generalize (String.length p). induction s as [|c s IH];
        intros [|n]; simpl; try lia. specialize (IH n). lia. }
    rewrite H in L. lia. }
  rewrite <- H at 1.
  apply substring_split. lia.
Qed.

Lemma index_0_iff_prefix p s :
  String.index 0 p s = Some 0 <-> String.prefix p s = true.
Proof.
  destruct s as [|c s]; cbn [String.index].
  - destruct p; simpl; split; congruence.
  - destruct (String.prefix p (String c s)); [done|].
    destruct (String.index 0 p s); split; congruence.
Qed.

Lemma index_empty s : String.index 0 "" s = Some 0.
Proof.
  apply index_0_iff_prefix, String.prefix_correct. by destruct s.
Qed.

Lemma str_indexOf_0 s p :
  str_indexOf s p = 0%Z <-> String.prefix p s = true.
Proof.
  rewrite <- index_0_iff_prefix. unfold str_indexOf.
  destruct (String.index 0 p s) as [i|]; [|split; [lia|done]].
  split; [intros H; f_equal; lia | by intros [= ->]].
Qed.

Lemma rename_same chunk : rename (name chunk) chunk = chunk.
Proof. by destruct chunk. Qed.

(** X18: [Unprefix] undoes [Prefix].  The event a [Prefix(p)] stream hands
    on, fed to an [Unprefix(p)] stream, is treated exactly as the original
    event would be by a plain event stream.  An event whose name does not
    start with [p] is dropped by [Unprefix(p)]: only [next] is called.  An
    event whose name starts with [p] goes on with [p] cut off. *)
Theorem unprefix_undoes_prefix p chunk st :
  (forall st0, Prefix__transform p chunk st0
               = _transform (rename (p +:+ name chunk) chunk) st0) /\
  Unprefix__transform p (rename (p +:+ name chunk) chunk) st
    = _transform chunk st /\
  (String.prefix p (name chunk) = false ->
     Unprefix__transform p chunk st = next st) /\
  (String.prefix p (name chunk) = true ->
     exists rest, name chunk = p +:+ rest /\
       Unprefix__transform p chunk st = _transform (rename rest chunk) st).
Proof.
  split; [done|]. unfold Unprefix__transform. split; [|split].
  - simpl. pose proof (proj2 (str_indexOf_0 (p +:+ name chunk) p) (prefix_app _ _)) as ->.
    simpl. unfold substr, rename. simpl.
    rewrite str_length_app, substring_skip.
    replace (String.length p + String.length (name chunk) - String.length p)
      with (String.length (name chunk)) by lia.
    rewrite substring_0_all. by destruct chunk.
  - intros Hp. destruct (Z.eqb_spec (str_indexOf (name chunk) p) 0) as [E|E]; [|done].
    apply str_indexOf_0 in E. congruence.
  - intros Hp. exists (substr (name chunk) (String.length p)).
    split; [by apply prefix_split|].
    apply str_indexOf_0 in Hp. by rewrite Hp.
Qed.

(** X19: [Unpostfix] never cuts anything but a final postfix.  Either the
    event is dropped (only [next] is called), or its name is a non-empty
    stem followed by the postfix, and it goes on under the stem's name. *)
Theorem unpostfix_strips_only_a_final_postfix q chunk st :
  Unpostfix__transform q chunk st = next st \/
  exists stem,
    stem <> "" /\ name chunk = stem +:+ q /\
    Unpostfix__transform q chunk st = _transform (rename stem chunk) st.
Proof.
  unfold Unpostfix__transform, str_indexOf.
  destruct (String.index 0 q (name chunk)) as [i|] eqn:Hi; [|by left].
  destruct (Z.ltb_spec (Z.of_nat i) 1) as [|Hi1]; [by left|].
  destruct (Z.eqb_spec (Z.of_nat i + Z.of_nat (String.length q))
              (Z.of_nat (String.length (name chunk)))) as [Hend|]; [|by left].
  right. simpl.
  assert (Hsum : i + String.length q = String.length (name chunk)) by lia.
  replace (String.length (name chunk) - String.length q) with i by lia.
  exists (String.substring 0 i (name chunk)). repeat split.
  - intros E. pose proof (substring_0_length (name chunk) i ltac:(lia)) as L.
    rewrite E in L. simpl in L. lia.
  - rewrite (substring_split (name chunk) i (String.length q) Hsum) at 1.
    by rewrite (String.index_correct1 _ _ _ _ Hi).
Qed.

Lemma occurrence_bounds_index a q b :
  q <> "" ->
  exists m, String.index 0 q (a +:+ q +:+ b) = Some m /\ m <= String.length a.
Proof.
  intros Hq.
  assert (Hocc : String.substring (String.length a) (String.length q)
                   (a +:+ q +:+ b) = q).
  { by rewrite substring_skip, substring_0_app. }
  destruct (String.index 0 q (a +:+ q +:+ b)) as [m|] eqn:Hi.
  - exists m. split; [done|].
    destruct (decide (m <= String.length a)) as [|Hn]; [done|]. exfalso.
    apply (String.index_correct2 _ _ _ _ Hi (String.length a)); [lia|lia|done].
  - exfalso.
    apply (String.index_correct3 0 (String.length a) _ _ Hi Hq); [lia|done].
Qed.

Lemma str_app_nil_r s : s +:+ "" = s.
Proof.
  induction s as [|x s IH]; [done|].
  change (String x (s +:+ "") = String x s). by rewrite IH.
Qed.

Lemma str_app_assoc a b c : (a +:+ b) +:+ c = a +:+ b +:+ c.
Proof.
  induction a as [|x a IH]; [done|].
  change (String x ((a +:+ b) +:+ c) = String x (a +:+ b +:+ c)).
  by rewrite IH.
Qed.

(** X20: [Unpostfix] undoes [Postfix] only for some names.  It looks for
    the first occurrence of the postfix.  An event with a non-empty name in
    which the postfix occurs nowhere but at the end of the postfixed name
    comes back unchanged.  An event with an empty name, and an event whose
    own name already contains the postfix, is dropped after [Postfix]
    followed by [Unpostfix]: only [next] is called. *)
Theorem unpostfix_undoes_postfix_for_some_names q chunk st :
  (forall st0, Postfix__transform q chunk st0
               = _transform (rename (name chunk +:+ q) chunk) st0) /\
  (name chunk <> "" -> q <> "" ->
   (forall i, i < String.length (name chunk) ->
      String.substring i (String.length q) (name chunk +:+ q) <> q) ->
   Unpostfix__transform q (rename (name chunk +:+ q) chunk) st
     = _transform chunk st) /\
  (name chunk = "" ->
   Unpostfix__transform q (rename (name chunk +:+ q) chunk) st = next st) /\
  (forall a b, name chunk = a +:+ q +:+ b ->
   Unpostfix__transform q (rename (name chunk +:+ q) chunk) st = next st).
Proof.
  split; [done|]. unfold Unpostfix__transform, str_indexOf. simpl.
  split; [|split].
  - intros Hn Hq Hfirst.
    destruct (occurrence_bounds_index (name chunk) q "" Hq) as (m & Hi & Hm).
    rewrite str_app_nil_r in Hi. rewrite Hi.
    assert (m = String.length (name chunk)) as ->.
    { destruct (decide (m = String.length (name chunk))) as [|Hne]; [done|].
      exfalso. apply (Hfirst m); [lia|].
      apply (String.index_correct1 _ _ _ _ Hi). }
    assert (0 < String.length (name chunk)) by (destruct (name chunk); simpl; [done|lia]).
    rewrite str_length_app.
    destruct (Z.ltb_spec (Z.of_nat (String.length (name chunk))) 1); [lia|].
    destruct (Z.eqb_spec
                (Z.of_nat (String.length (name chunk)) + Z.of_nat (String.length q))
                (Z.of_nat (String.length (name chunk) + String.length q))); [|lia].
    simpl.
    replace (String.length (name chunk) + String.length q - String.length q)
      with (String.length (name chunk)) by lia.
    rewrite substring_0_app. apply f_equal2; [|done]. by destruct chunk.
  - intros Hn. rewrite Hn. change ("" +:+ q) with q.
    pose proof (proj2 (index_0_iff_prefix q q)) as Hi.
    rewrite Hi; [done|]. apply String.prefix_correct, substring_0_all.
  - intros a b ->.
    destruct (decide (q = "")) as [->|Hq].
    + by rewrite index_empty.
    + rewrite !str_app_assoc.
      destruct (occurrence_bounds_index a q (b +:+ q) Hq) as (m & -> & Hm).
      rewrite !str_length_app.
      assert (0 < String.length q) by (destruct q; simpl; [done|lia]).
      destruct (Z.ltb_spec (Z.of_nat m) 1); [done|].
      destruct (Z.eqb_spec (Z.of_nat m + Z.of_nat (String.length q))
                  (Z.of_nat (String.length a
                     + (String.length q + (String.length b + String.length q)))));
        [lia|done].
Qed.

Lemma unprefix_undoes_prefix_witness :
  Unprefix__transform "app." (rename "app.start" (mkEvent "start" VNull 5)) new
    = _transform (mkEvent "start" VNull 5) new /\
  Unprefix__transform "app." (mkEvent "start" VNull 5) new = next new.
Proof.
  destruct (unprefix_undoes_prefix "app." (mkEvent "start" VNull 5) new)
    as (_ & H2 & H3 & _).
  split; [exact H2 | exact (H3 eq_refl)].
Defined.

Lemma unpostfix_undoes_postfix_witness :
  Unpostfix__transform ".x" (rename "a.x" (mkEvent "a" VNull 5)) new
    = _transform (mkEvent "a" VNull 5) new /\
  Unpostfix__transform ".x" (rename "a.x.y.x" (mkEvent "a.x.y" VNull 5)) new
    = next new.
Proof.
  destruct (unpostfix_undoes_postfix_for_some_names ".x" (mkEvent "a" VNull 5) new)
    as (_ & H2 & _).
  destruct (unpostfix_undoes_postfix_for_some_names ".x" (mkEvent "a.x.y" VNull 5) new)
    as (_ & _ & _ & H4).
  split.
  - apply H2; [discriminate | discriminate |].
    intros [|i] Hi; simpl in *; [discriminate | lia].
  - exact (H4 "a" ".y" eq_refl).
Defined.

(** The listener loop touches neither the pushed events nor the count of
    acknowledgements. *)
Lemma loop_keeps_output fuel i chunk st :
  pushed (listeners_loop fuel i chunk st) = pushed st /\
  nexts (listeners_loop fuel i chunk st) = nexts st.
Proof.
  revert i st. induction fuel as [|fuel IH]; intros i st; simpl; [done|].
  destruct (eventStreamListeners st !! i) as [h|]; [|done].
  destruct (IH (S i) (call_handle h chunk st)) as [-> ->].
  unfold call_handle, removeReceiver.
  by repeat case_match.
Qed.

Lemma _transform_output chunk st :
  pushed (_transform chunk st) = pushed st ++ [chunk] /\
  nexts (_transform chunk st) = S (nexts st).
Proof.
  unfold _transform. simpl.
  destruct (loop_keeps_output (length (eventStreamListeners st)) 0 chunk
              (push chunk st)) as [-> ->].
  done.
Qed.

Lemma step_nexts_count o st :
  nexts (step o st) = nexts st + (if is_transform o then 1 else 0).
Proof.
  destruct o; simpl;
    unfold Filter__transform, Prefix__transform, Unprefix__transform,
      Postfix__transform, Unpostfix__transform, removeReceiver;
    repeat case_match; simpl;
    rewrite ?(proj2 (loop_keeps_output _ _ _ _)); simpl; lia.
Qed.

(** X21: an event stream, of the class or of any subclass, acknowledges
    every chunk exactly once, whether the chunk is passed on or dropped:
    over any sequence of operations, [next] is called once per chunk handed
    to a [_transform], and by nothing else. *)
Theorem every_chunk_acknowledged_once (os : list op) st :
  nexts (run os st) = nexts st + length (filter (fun o => is_transform o = true) os).
Proof.
  revert st. induction os as [|o os IH]; intros st; [simpl; lia|].
  change (run (o :: os) st) with (run os (step o st)).
  rewrite IH, step_nexts_count, filter_cons.
  destruct (is_transform o); simpl; lia.
Qed.

Lemma filter_run_pushed (f : string -> bool) (cs : list Event) st :
  pushed (foldl (fun acc c => Filter__transform f c acc) st cs)
  = pushed st ++ filter (fun c => f (name c) = true) cs.
Proof.
  revert st. induction cs as [|c cs IH]; intros st; simpl.
  - by rewrite app_nil_r.
  - rewrite IH, filter_cons. unfold Filter__transform.
    destruct (f (name c)).
    + rewrite decide_True by done.
      rewrite (proj1 (_transform_output c st)). by rewrite <- app_assoc.
    + by rewrite decide_False.
Qed.

(** X22: a [Filter] stream pushes exactly the chunks its filter accepts.
    After any list of chunks, the events pushed are the accepted chunks,
    unchanged and in order; a rejected chunk is never pushed. *)
Theorem filter_pushes_exactly_accepted_chunks (f : string -> bool)
    (cs : list Event) st :
  pushed (foldl (fun acc c => Filter__transform f c acc) st cs)
  = pushed st ++ filter (fun c => f (name c) = true) cs.
Proof. apply filter_run_pushed. Qed.

(** X23: what the argument of [new Filter(...)] selects.  A filter made
    from a non-empty string passes exactly the chunks of that name.  A
    filter made from the empty string does not select the chunks with an
    empty name: like a filter made without argument, it passes every
    chunk. *)
Theorem filter_from_string_selects_by_name (str : string) (cs : list Event) st :
  pushed (foldl (fun acc c => Filter__transform (Filter (Some (NString str))) c acc)
            st cs)
  = pushed st ++ (if decide (str = "") then cs
                  else filter (fun c => name c = str) cs) /\
  pushed (foldl (fun acc c => Filter__transform (Filter None) c acc) st cs)
  = pushed st ++ cs.
Proof.
  assert (All : forall l : list Event, filter (fun c => (fun _ => true) (name c) = true) l = l).
  { induction l as [|c l IH]; [done|].
    rewrite filter_cons, decide_True by done. by rewrite IH. }
  rewrite !filter_run_pushed. split.
  - destruct (decide (str = "")) as [->|Hne].
    + simpl. by rewrite All.
    + assert (E : Filter (Some (NString str)) = fun val => String.eqb val str).
      { destruct str; [done|]. reflexivity. }
      rewrite E. f_equal. apply list_filter_iff. intros c.
      apply String.eqb_eq.
  - simpl. by rewrite All.
Qed.

End EventNames.
